(** * eventio: a synchronous event emitter (src/lib/event-emitter.ts)

    The class [EventEmitter] keeps a JavaScript [Map] from event names to
    arrays of listener functions and a numeric [_maxListeners] threshold.
    This development embeds the class in Rocq and proves properties of its
    methods.

    Modelling decisions, all taken from the source:

    - JavaScript values are the inductive [Value]; numbers are IEEE-754
      doubles, represented by the standard [spec_float].
    - Arrays are mutable objects compared by reference ([currentListeners
      !== newListeners]) and mutated in place ([push], [unshift]), so the
      world carries a store of arrays addressed by reference, and
      [_eventMap] maps names to references.
    - A JavaScript [Map] iterates in insertion order; it is an association
      list with the operations [Map_get], [Map_has], [Map_set],
      [Map_delete].
    - Listeners are functions supplied by the caller.  A caller's function
      is identified by a number; what it does when invoked is a program
      ([Prog]) over the emitter's public methods and the caller's own
      state.  The closure that [once] creates is the constructor
      [VOnceListener].
    - Listeners call back into the emitter, so invocation is defined with
      fuel; running out of fuel ([Timeout]) stands for a call that does
      not return.
    - The warning of [addListener] reads an identifier [name] that the
      class does not declare; its value in the host is a parameter
      ([global_name]).
    - The world keeps a log of the function invocations made, each with its
      call depth ([calls]).  No method reads it; properties about which
      listeners were invoked, in which order and on which arguments are
      stated on it. *)

From Stdlib Require Import ZArith Ascii Floats.SpecFloat.
From stdpp Require Import base tactics option list strings pretty.

#[global] Set Warnings "-clear-no-such-hyp".
Open Scope string_scope.
Open Scope list_scope.

(** ** JavaScript values *)

Inductive Value : Type :=
| VUndefined
| VNull
| VBoolean (b : bool)
| VNumber (x : spec_float)
| VString (s : string)
| VObject (id : nat)
| VFunction (id : nat)
| VOnceListener (id : nat) (eventNames : string) (listener : Value).

#[global] Instance spec_float_eq_dec : EqDecision spec_float.
Proof. solve_decision. Defined.

#[global] Instance Value_eq_dec : EqDecision Value.
Proof. solve_decision. Defined.

(** [typeof v === 'function'] *)
Definition is_function (v : Value) : bool :=
  match v with
  | VFunction _ | VOnceListener _ _ _ => true
  | _ => false
  end.

(** [a === b].  Numbers compare as doubles (NaN differs from itself, the two
    zeros are equal); every other value compares by identity.  A closure of
    [once] is identified by its allocation number, which no two closures
    share, so identity is equality of the constructor's arguments. *)
Definition strict_equals (a b : Value) : bool :=
  match a, b with
  | VNumber x, VNumber y => SFeqb x y
  | _, _ => bool_decide (a = b)
  end.

(** The double nearest to a natural number (array lengths are exact). *)
Definition number_of_nat (n : nat) : spec_float :=
  binary_normalize 53 1024 (Z.of_nat n) 0 false.

Definition Infinity : spec_float := S754_infinity false.
Definition zero : spec_float := S754_zero false.

(** [isNaN(x)] for a number [x]. *)
Definition isNaN (x : spec_float) : bool :=
  match x with
  | S754_nan => true
  | _ => false
  end.

(** ** Errors *)

Inductive Error : Type :=
| TypeError (message : string)
| RangeError (message : string)
| ReferenceError (message : string)
| UserError (v : Value).

(** ** [String.prototype.split] with a one-character separator *)

Fixpoint split_on (sep : ascii) (s : string) : list string :=
  match s with
  | EmptyString => [""]
  | String c s' =>
      if decide (c = sep) then "" :: split_on sep s'
      else match split_on sep s' with
           | t :: ts => String c t :: ts
           | [] => [String c ""]
           end
  end.

(** [eventNames.split(' ')] *)
Definition split_space (s : string) : list string := split_on " "%char s.

(** ** The insertion-ordered [Map<string, Function[]>]

    Values are references to arrays in the store. *)

Definition EventMap : Type := list (string * nat).

Fixpoint Map_get (m : EventMap) (k : string) : option nat :=
  match m with
  | [] => None
  | (k', r) :: m' => if decide (k' = k) then Some r else Map_get m' k
  end.

Definition Map_has (m : EventMap) (k : string) : bool :=
  match Map_get m k with
  | Some _ => true
  | None => false
  end.

(** [set] keeps the position of an existing key and appends a new one. *)
Fixpoint Map_set (m : EventMap) (k : string) (r : nat) : EventMap :=
  match m with
  | [] => [(k, r)]
  | (k', r') :: m' =>
      if decide (k' = k) then (k, r) :: m' else (k', r') :: Map_set m' k r
  end.

Fixpoint Map_delete (m : EventMap) (k : string) : EventMap :=
  match m with
  | [] => []
  | (k', r') :: m' =>
      if decide (k' = k) then m' else (k', r') :: Map_delete m' k
  end.

Definition Map_keys (m : EventMap) : list string := m.*1.

(** ** Programs of caller-supplied functions

    A function of the caller reaches the emitter through its public
    methods only ([_eventMap] and [_maxListeners] are private).  It may
    also call a function value it holds ([OpCall]), read and write the
    caller's own state, and fail. *)

Inductive Op : Type :=
| OpAddListener (eventNames : string) (listener : Value) (prepend : bool)
| OpRemoveListener (eventNames : string) (listener : Value)
| OpEmit (eventName : string) (args : list Value)
| OpOnce (eventNames : string) (listener : Value) (prepend : bool)
| OpRemoveAllListeners (eventName : string)
| OpEventNames
| OpListeners (eventName : string)
| OpListenerCount (eventName : string)
| OpGetMaxListeners
| OpSetMaxListeners (n : Value)
| OpCall (f : Value) (args : list Value).

Inductive Reply : Type :=
| RetUndefined
| RetBoolean (b : bool)
| RetNumber (x : spec_float)
| RetCount (n : nat)
| RetNames (names : list string)
| RetListeners (ls : list Value)
| Raised (e : Error).

Inductive Prog (U : Type) : Type :=
| Done
| Fail (e : Error)
| Emitter (op : Op) (k : Reply -> Prog U)
| Load (k : U -> Prog U)
| Store (u : U) (p : Prog U).

Arguments Done {U}.
Arguments Fail {U} e.
Arguments Emitter {U} op k.
Arguments Load {U} k.
Arguments Store {U} u p.

(** One entry of the invocation log: call depth, callee, arguments. *)
Definition Invocation : Type := nat * Value * list Value.

(** ** The emitter and its world *)

Section Emitter.

(** The caller's own state, which listeners may read and write. *)
Context {U : Type}.

Record World : Type := mkWorld {
  _eventMap : EventMap;              (* private _eventMap *)
  _maxListeners : spec_float;        (* private _maxListeners *)
  store : list (list Value);         (* the arrays allocated so far *)
  closures : nat;                    (* closures created by [once] so far *)
  console : list string;             (* lines written by console.warn *)
  calls : list Invocation;           (* log of function invocations *)
  user : U                           (* the caller's own state *)
}.

Definition with_eventMap (m : EventMap) (w : World) : World :=
  mkWorld m (_maxListeners w) (store w) (closures w) (console w) (calls w) (user w).
Definition with_maxListeners (x : spec_float) (w : World) : World :=
  mkWorld (_eventMap w) x (store w) (closures w) (console w) (calls w) (user w).
Definition with_store (h : list (list Value)) (w : World) : World :=
  mkWorld (_eventMap w) (_maxListeners w) h (closures w) (console w) (calls w) (user w).
Definition with_closures (n : nat) (w : World) : World :=
  mkWorld (_eventMap w) (_maxListeners w) (store w) n (console w) (calls w) (user w).
Definition with_console (c : list string) (w : World) : World :=
  mkWorld (_eventMap w) (_maxListeners w) (store w) (closures w) c (calls w) (user w).
Definition with_calls (c : list Invocation) (w : World) : World :=
  mkWorld (_eventMap w) (_maxListeners w) (store w) (closures w) (console w) c (user w).
Definition with_user (u : U) (w : World) : World :=
  mkWorld (_eventMap w) (_maxListeners w) (store w) (closures w) (console w) (calls w) u.

(** static readonly DEFAULT_MAX_LISTENERS = 10 *)
Definition DEFAULT_MAX_LISTENERS : spec_float := number_of_nat 10.

(** [new EventEmitter()] in a caller's state [u]. *)
Definition new_EventEmitter (u : U) : World :=
  mkWorld [] DEFAULT_MAX_LISTENERS [] 0 [] [] u.

(** *** Results of method calls *)

Inductive Outcome (A : Type) : Type :=
| Ok (a : A) (w : World)
| Thrown (e : Error) (w : World)
| Timeout.

Arguments Ok {A} a w.
Arguments Thrown {A} e w.
Arguments Timeout {A}.

Definition M (A : Type) : Type := World -> Outcome A.

Definition ret {A} (a : A) : M A := fun w => Ok a w.
Definition throw {A} (e : Error) : M A := fun w => Thrown e w.
Definition bind {A B} (m : M A) (k : A -> M B) : M B :=
  fun w =>
    match m w with
    | Ok a w' => k a w'
    | Thrown e w' => Thrown e w'
    | Timeout => Timeout
    end.
Definition modify (f : World -> World) : M unit := fun w => Ok tt (f w).

Notation "'do' x <- m ; k" := (bind m (fun x => k))
  (at level 10, x name, m at level 100, k at level 200).

(** *** Arrays in the store *)

(** The elements of the array at reference [r]. *)
Definition array_at (w : World) (r : nat) : list Value :=
  default [] (store w !! r).

(** A new array; its reference is the next free index of the store. *)
Definition alloc (l : list Value) (w : World) : nat * World :=
  (length (store w), with_store (store w ++ [l]) w).

(** [arr.push(v)] and [arr.unshift(v)] mutate the array in place. *)
Definition Array_push (r : nat) (v : Value) (w : World) : World :=
  with_store (alter (fun l => l ++ [v]) r (store w)) w.
Definition Array_unshift (r : nat) (v : Value) (w : World) : World :=
  with_store (alter (fun l => v :: l) r (store w)) w.

(** [arr.filter(p)] returns a new array. *)
Definition Array_filter (p : Value -> bool) (r : nat) (w : World) : nat * World :=
  alloc (List.filter p (array_at w r)) w.

(** *** Methods that invoke no listener *)

(** listenerCount(eventName) *)
Definition listenerCount (eventName : string) (w : World) : nat :=
  match Map_get (_eventMap w) eventName with
  | None => 0
  | Some r => length (array_at w r)
  end.

(** listeners(eventName): [Object.assign([], this._eventMap.get(...))], a
    fresh array holding the elements of the stored one, or no element when
    the name has no entry. *)
Definition listeners (eventName : string) (w : World) : nat * World :=
  match Map_get (_eventMap w) eventName with
  | None => alloc [] w
  | Some r => alloc (array_at w r) w
  end.

(** eventNames() *)
Definition eventNames (w : World) : list string := Map_keys (_eventMap w).

(** removeAllListeners(eventName) *)
Definition removeAllListeners (eventName : string) (w : World) : World :=
  with_eventMap (Map_delete (_eventMap w) eventName) w.

(** get maxListeners() *)
Definition maxListeners (w : World) : spec_float := _maxListeners w.

(** set maxListeners(n) *)
Definition set_maxListeners (n : Value) : M unit :=
  fun w =>
    match n with
    | VNumber x =>
        if isNaN x then Thrown (TypeError "maxListeners must be a number.") w
        else if SFltb x zero then
          Thrown (RangeError "maxListeners cannot be set to a negative value.") w
        else if SFeqb x zero then Ok tt (with_maxListeners Infinity w)
        else Ok tt (with_maxListeners x w)
    | _ => Thrown (TypeError "maxListeners must be a number.") w
    end.

(** The global identifier [name] that the warning of [addListener] reads.
    The class does not declare it: where the host defines it (a browser's
    [window.name]) it is a string, elsewhere reading it raises a
    ReferenceError. *)
Variable global_name : option string.

Definition warning (w : World) (g : string) : string :=
  "Possible EventEmitter memory leak detected. " +:+
  pretty (listenerCount g w) +:+ " " +:+ g +:+ " listeners " +:+
  "added. Set emitter.maxListeners to " +:+
  "increase limit.".

(** The body of the loop of [addListener], for one name. *)
Definition addListener_step (eventName : string) (listener : Value)
    (prepend : bool) : M unit :=
  do _ <- (fun w =>
      if SFeqb (number_of_nat (listenerCount eventName w)) (maxListeners w)
      then match global_name with
           | Some g => Ok tt (with_console (console w ++ [warning w g]) w)
           | None => Thrown (ReferenceError "name is not defined") w
           end
      else Ok tt w);
  do _ <- (fun w =>
      if negb (Map_has (_eventMap w) eventName)
      then let '(r, w) := alloc [] w in
           Ok tt (with_eventMap (Map_set (_eventMap w) eventName r) w)
      else Ok tt w);
  fun w =>
    match Map_get (_eventMap w) eventName with
    | Some r =>
        if prepend then Ok tt (Array_unshift r listener w)
        else Ok tt (Array_push r listener w)
    | None => Thrown (TypeError "Cannot read properties of undefined") w
    end.

(** [for (const eventName of names) body] *)
Fixpoint for_of {A} (names : list A) (body : A -> M unit) : M unit :=
  match names with
  | [] => ret tt
  | eventName :: rest => do _ <- body eventName; for_of rest body
  end.

(** addListener(eventNames, listener, prepend = false) *)
Definition addListener (eventNames : string) (listener : Value)
    (prepend : bool) : M unit :=
  if negb (is_function listener)
  then throw (TypeError "listener must be a function")
  else for_of (split_space eventNames)
         (fun eventName => addListener_step eventName listener prepend).

(** on = this.addListener *)
Definition on := addListener.

(** prependListener(eventNames, listener) *)
Definition prependListener (eventNames : string) (listener : Value) : M unit :=
  addListener eventNames listener true.

(** *** Methods that invoke listeners

    [call f args] stands for the invocation of the function [f] on [args]
    with [this] bound to the emitter. *)

Section WithCall.

Variable call : Value -> list Value -> M unit.

(** [arr.forEach(listener => Reflect.apply(listener, this, args))]: the
    length is read once, then each index below it is visited, and the
    element is read from the array when its turn comes. *)
Fixpoint forEach_from (arr : nat) (args : list Value) (k remaining : nat)
    : M unit :=
  match remaining with
  | 0 => ret tt
  | S remaining' =>
      fun w =>
        match array_at w arr !! k with
        | Some listener =>
            (do _ <- call listener args;
             forEach_from arr args (S k) remaining') w
        | None => forEach_from arr args (S k) remaining' w
        end
  end.

Definition Array_forEach (arr : nat) (args : list Value) : M unit :=
  fun w => forEach_from arr args 0 (length (array_at w arr)) w.

(** emit(eventName, ...args) *)
Definition emit (eventName : string) (args : list Value) : M bool :=
  fun w =>
    let '(listeners, w) := listeners eventName w in
    if (length (array_at w listeners) =? 0)%nat then Ok false w
    else (do _ <- Array_forEach listeners args; ret true) w.

(** The body of the loop of [removeListener], for one name. *)
Definition removeListener_step (eventName : string) (listener : Value)
    : M unit :=
  fun w =>
    let '(currentListeners, w) := listeners eventName w in
    let '(newListeners, w) :=
      Array_filter (fun l => negb (strict_equals l listener))
        currentListeners w in
    if (length (array_at w newListeners) =? 0)%nat
    then Ok tt (removeAllListeners eventName w)
    else if negb (currentListeners =? newListeners)%nat
    then (do _ <- modify (fun w =>
                with_eventMap (Map_set (_eventMap w) eventName newListeners) w);
          do _ <- emit "removeListener" [VString eventName; listener];
          ret tt) w
    else Ok tt w.

(** removeListener(eventNames, listener) *)
Definition removeListener (eventNames : string) (listener : Value) : M unit :=
  if negb (is_function listener)
  then throw (TypeError "listener must be a function")
  else for_of (split_space eventNames)
         (fun eventName => removeListener_step eventName listener).

(** off = this.removeListener *)
Definition off := removeListener.

(** once(eventNames, listener, prepend = false): the closure
    [onceListener] is created, then registered. *)
Definition once (eventNames : string) (listener : Value) (prepend : bool)
    : M unit :=
  fun w =>
    let onceListener := VOnceListener (closures w) eventNames listener in
    addListener eventNames onceListener prepend
      (with_closures (S (closures w)) w).

(** prependOnce(eventNames, listener) *)
Definition prependOnce (eventNames : string) (listener : Value) : M unit :=
  once eventNames listener true.

(** One call of a public method by a caller's function, and its reply.
    An error raised by the method is handed to the caller's continuation,
    which may handle it or fail with it. *)
Definition perform (op : Op) : M Reply :=
  fun w =>
    let reply {A} (o : Outcome A) (f : A -> Reply) : Outcome Reply :=
      match o with
      | Ok a w' => Ok (f a) w'
      | Thrown e w' => Ok (Raised e) w'
      | Timeout => Timeout
      end in
    match op with
    | OpAddListener names l prepend =>
        reply (addListener names l prepend w) (fun _ => RetUndefined)
    | OpRemoveListener names l =>
        reply (removeListener names l w) (fun _ => RetUndefined)
    | OpEmit name args => reply (emit name args w) RetBoolean
    | OpOnce names l prepend =>
        reply (once names l prepend w) (fun _ => RetUndefined)
    | OpRemoveAllListeners name => Ok RetUndefined (removeAllListeners name w)
    | OpEventNames => Ok (RetNames (eventNames w)) w
    | OpListeners name =>
        let '(r, w') := listeners name w in Ok (RetListeners (array_at w' r)) w'
    | OpListenerCount name => Ok (RetCount (listenerCount name w)) w
    | OpGetMaxListeners => Ok (RetNumber (maxListeners w)) w
    | OpSetMaxListeners n => reply (set_maxListeners n w) (fun _ => RetUndefined)
    | OpCall f args => reply (call f args w) (fun _ => RetUndefined)
    end.

(** Running the program of a caller's function. *)
Fixpoint run (p : Prog U) : M unit :=
  match p with
  | Done => ret tt
  | Fail e => throw e
  | Emitter op k => fun w =>
      match perform op w with
      | Ok r w' => run (k r) w'
      | Thrown e w' => Thrown e w'
      | Timeout => Timeout
      end
  | Load k => fun w => run (k (user w)) w
  | Store u p => fun w => run p (with_user u w)
  end.

End WithCall.

(** What each function of the caller does when it is invoked. *)
Variable body : nat -> list Value -> Prog U.

(** [apply fuel depth f args]: the invocation of [f] on [args].  Each
    invocation is entered in the log with its call depth; what the callee
    invokes in turn is one level deeper.  Calling a value that is not a
    function raises a TypeError. *)
Fixpoint apply (fuel depth : nat) (f : Value) (args : list Value) : M unit :=
  match fuel with
  | 0 => fun _ => Timeout
  | S fuel' =>
      let enter := modify (fun w =>
        with_calls (calls w ++ [(depth, f, args)]) w) in
      match f with
      | VFunction id =>
          do _ <- enter;
          run (apply fuel' (S depth)) (body id args)
      | VOnceListener _ eventNames listener =>
          (* (...args) => { listener(...args);
                            this.removeListener(eventNames, onceListener) } *)
          do _ <- enter;
          do _ <- apply fuel' (S depth) listener args;
          removeListener (apply fuel' (S depth)) eventNames f
      | _ => throw (TypeError "is not a function")
      end
  end.

End Emitter.

Arguments World U : clear implicits.
Arguments Outcome U A : clear implicits.
Arguments M U A : clear implicits.
Arguments Ok {U A} a w.
Arguments Thrown {U A} e w.
Arguments Timeout {U A}.

Notation "'do' x <- m ; k" := (bind m (fun x => k))
  (at level 10, x name, m at level 100, k at level 200).

(** ** Observations and invariants *)

Section Observations.

Context {U : Type}.
Implicit Types (w : World U) (n m : string) (r : nat) (f : Value).

(** The elements that [listeners n] returns: the registered sequence. *)
Definition listeners_of w n : list Value :=
  match Map_get (_eventMap w) n with
  | Some r => array_at w r
  | None => []
  end.

(** The array references held by the map. *)
Definition refs w : list nat := (_eventMap w).*2.

(** Two worlds that a caller cannot tell apart through [eventNames],
    [listeners], [listenerCount] and [maxListeners]. *)
Definition same_registry w w' : Prop :=
  eventNames w' = eventNames w /\
  (forall n, listeners_of w' n = listeners_of w n) /\
  maxListeners w' = maxListeners w.

(** The map is well formed: keys are unique, no array is shared by two
    names, and every reference points into the store. *)
Record heap_ok w : Prop := {
  keys_nodup : NoDup (eventNames w);
  refs_nodup : NoDup (refs w);
  refs_valid : forall r, r ∈ refs w -> r < length (store w)
}.

(** A name has an entry exactly when its sequence is not empty. *)
Definition registry_inv w : Prop :=
  forall n, n ∈ eventNames w <-> listeners_of w n <> [].

(** Arrays that the map does not hold are left alone, and the map takes
    up none of them. *)
Definition frame w w' : Prop :=
  length (store w) <= length (store w') /\
  forall r, r < length (store w) -> r ∉ refs w ->
    store w' !! r = store w !! r /\ r ∉ refs w'.

(** The log grows by invocations at depth [d] or deeper. *)
Definition log_from (d : nat) w w' : Prop :=
  exists ext, calls w' = calls w ++ ext /\ Forall (fun e => d <= e.1.1) ext.

Record evolves (d : nat) w w' : Prop := {
  ev_heap_ok : heap_ok w';
  ev_inv : registry_inv w -> registry_inv w';
  ev_frame : frame w w';
  ev_log : log_from d w w'
}.

(** [evolves] holds of the world in which a method returns or throws. *)
Definition post {A} (d : nat) w (o : Outcome U A) : Prop :=
  match o with
  | Ok _ w' | Thrown _ w' => evolves d w w'
  | Timeout => True
  end.

Definition call_ok (d : nat) (call : Value -> list Value -> M U unit) : Prop :=
  forall f args w, heap_ok w -> post d w (call f args w).

(** Invoking each element of a list of listeners in turn. *)
Definition invoke_each (call : Value -> list Value -> M U unit)
    (ls : list Value) (args : list Value) : M U unit :=
  for_of ls (fun l => call l args).

(** The invocations at depth 0 in a log: callee and arguments. *)
Definition top_calls (log : list Invocation) : list (Value * list Value) :=
  omap (fun e : Invocation =>
          match e.1.1 with 0 => Some (e.1.2, e.2) | S _ => None end) log.

(** The world after [listeners n]: a copy of the sequence was allocated. *)
Definition snapshot w n : World U :=
  with_store (store w ++ [listeners_of w n]) w.

(** The world of [removeListener_step n f] after its update of the map and
    before it emits: two arrays were allocated, the copy and the filtered
    copy, and the entry of [n] is deleted or points to the latter. *)
Definition removed w n f : World U :=
  let ls := listeners_of w n in
  let new := List.filter (fun l => negb (strict_equals l f)) ls in
  let w2 := with_store (store w ++ [ls; new]) w in
  match new with
  | [] => removeAllListeners n w2
  | _ :: _ =>
      with_eventMap (Map_set (_eventMap w) n (S (length (store w)))) w2
  end.

(** The effect of [addListener_step n f prepend]: [f] joins the sequence
    of [n], a new name goes last in the map, nothing else changes. *)
Definition added n f (prepend : bool) w w' : Prop :=
  heap_ok w' /\
  eventNames w' =
    (if decide (n ∈ eventNames w) then eventNames w
     else eventNames w ++ [n]) /\
  (forall k, listeners_of w' k =
     if decide (n = k)
     then (if prepend then f :: listeners_of w n else listeners_of w n ++ [f])
     else listeners_of w k) /\
  _maxListeners w' = _maxListeners w /\
  closures w' = closures w /\
  calls w' = calls w /\
  user w' = user w.

(** A property of the world in which a method returns or throws. *)
Definition holds_after {A} (P : World U -> Prop) (o : Outcome U A) : Prop :=
  match o with
  | Ok _ w' | Thrown _ w' => P w'
  | Timeout => True
  end.

(** A decision procedure for [heap_ok]. *)
Definition heap_okb w : bool :=
  bool_decide (NoDup (eventNames w)) &&
  bool_decide (NoDup (refs w)) &&
  forallb (fun r => (r <? length (store w))%nat) (refs w).

(** How often a name occurs in a list of names. *)
Definition occurrences (k : string) (names : list string) : nat :=
  length (List.filter (fun x => bool_decide (x = k)) names).

(** A decision procedure for [registry_inv]. *)
Definition registry_invb w : bool :=
  forallb (fun e : string * nat =>
             match array_at w e.2 with [] => false | _ :: _ => true end)
    (_eventMap w).

(** The shapes of a names string that the claim on empty names lists: the
    empty string, a leading space, a trailing space, two spaces in a row. *)
Definition has_empty_token (names : string) : Prop :=
  names = "" \/
  (exists t, names = " " +:+ t) \/
  (exists t, names = t +:+ " ") \/
  (exists t u, names = t +:+ "  " +:+ u).

(** Programs that never call the emitter and never fail: they read and
    write the caller's own state only. *)
Inductive quiet : Prog U -> Prop :=
| quiet_Done : quiet Done
| quiet_Load k : (forall u, quiet (k u)) -> quiet (Load k)
| quiet_Store u p : quiet p -> quiet (Store u p).

(** A function of the caller whose program is quiet on every argument
    list. *)
Definition quiet_listener (body : nat -> list Value -> Prog U) (l : Value)
    : Prop :=
  exists id, l = VFunction id /\ forall args, quiet (body id args).

(** [w'] has the registry of [w], sequence by sequence, and its log is the
    log of [w] followed by [ext]. *)
Definition logged w (ext : list Invocation) w' : Prop :=
  heap_ok w' /\
  (forall k, listeners_of w' k = listeners_of w k) /\
  calls w' = calls w ++ ext.

(** Whether a character occurs in a string. *)
Fixpoint contains (c : ascii) (s : string) : bool :=
  match s with
  | EmptyString => false
  | String c' s' => if decide (c' = c) then true else contains c s'
  end.


(** A function of the caller that emits the event [n] first thing, on
    every argument list. *)
Definition emits_first (body : nat -> list Value -> Prog U) (l : Value)
    (n : string) : Prop :=
  exists id, l = VFunction id /\
    forall args, exists args' k, body id args = Emitter (OpEmit n args') k.

(** The warning of [addListener] does not throw while the listener is
    added under [names], one after the other: the host defines the global
    [name] that the warning reads, or no count that the loop tests equals
    [maxListeners].  The [i]-th addition under [k] tests the count that [k]
    had at the start plus [i]. *)
Definition warning_does_not_throw (global_name : option string)
    (names : list string) w : Prop :=
  is_Some global_name \/
  forall k i, k ∈ names -> i < occurrences k names ->
    SFeqb (number_of_nat (listenerCount k w + i)) (maxListeners w) = false.

End Observations.

(** ** Concrete emitters, used as examples *)

Module Example.

(** Three functions of a caller: [A] removes [B] from "x" and prepends
    [C] to "x"; [B] and [C] do nothing. *)
Definition A : Value := VFunction 0.
Definition B : Value := VFunction 1.
Definition C : Value := VFunction 2.

Definition body (id : nat) (args : list Value) : Prog unit :=
  match id with
  | 0 => Emitter (OpRemoveListener "x" B)
           (fun _ => Emitter (OpAddListener "x" C true) (fun _ => Done))
  | _ => Done
  end.

(** Functions that never call the emitter. *)
Definition idle (id : nat) (args : list Value) : Prog unit := Done.

(** The emitter after [on("x", A); on("x", B)]. *)
Definition AB : World unit :=
  mkWorld [("x", 0)] DEFAULT_MAX_LISTENERS [[A; B]] 0 [] [] tt.

(** The arguments 1 and 2. *)
Definition one_two : list Value :=
  [VNumber (number_of_nat 1); VNumber (number_of_nat 2)].

(** Invocation of idle functions, from the top level. *)
Definition call_idle : Value -> list Value -> M unit unit :=
  apply None idle 2 0.

(** The closure that [once("x", C)] creates on [AB]. *)
Definition onceListener : Value := VOnceListener 0 "x" C.

(** The emitter after [on("x", A); on("x", A)]. *)
Definition AA : World unit :=
  mkWorld [("x", 0)] DEFAULT_MAX_LISTENERS [[A; A]] 0 [] [] tt.

(** The emitter after [on("x", A); on("x", B); on("y", C)]. *)
Definition AB_C : World unit :=
  mkWorld [("x", 0); ("y", 1)] DEFAULT_MAX_LISTENERS [[A; B]; [C]] 0 [] [] tt.


(** Functions that emit "x" on their own arguments. *)
Definition looping (id : nat) (args : list Value) : Prog unit :=
  Emitter (OpEmit "x" args) (fun _ => Done).


(** Functions of which [A] emits "y" on [null]. *)
Definition nesting (id : nat) (args : list Value) : Prog unit :=
  match id with
  | 0 => Emitter (OpEmit "y" [VNull]) (fun _ => Done)
  | _ => Done
  end.

End Example.

(** ** Lemmas on the insertion-ordered map *)

Section MapLemmas.

Implicit Types (m : EventMap) (k : string) (r : nat).

Lemma Map_get_Some_elem m k r : Map_get m k = Some r -> (k, r) ∈ m.
Proof.
  induction m as [|[k' r'] m IH]; csimpl; [done|].
  case_decide; intros Hg; simplify_eq; [left | right; auto].
Qed.

Lemma Map_get_elem m k r : NoDup m.*1 -> (k, r) ∈ m -> Map_get m k = Some r.
Proof.
  induction m as [|[k' r'] m IH]; csimpl; intros Hnd Hin.
  - by apply elem_of_nil in Hin.
  - apply NoDup_cons in Hnd as [Hk Hnd].
    apply elem_of_cons in Hin as [Heq|Hin]; simplify_eq.
    + by rewrite decide_True.
    + rewrite decide_False; [auto|].
      intros ->. apply Hk. apply list_elem_of_fmap. by exists (k, r).
Qed.

Lemma Map_get_key m k : k ∈ m.*1 <-> is_Some (Map_get m k).
Proof.
  induction m as [|[k' r'] m IH]; csimpl.
  - split; [intros H; by apply elem_of_nil in H | intros [? ?]; done].
  - case_decide; subst.
    + split; [eauto | left].
    + rewrite elem_of_cons, IH. naive_solver.
Qed.

Lemma Map_get_None m k : k ∉ m.*1 <-> Map_get m k = None.
Proof. rewrite Map_get_key, eq_None_not_Some. done. Qed.

Lemma Map_get_ref m k r : Map_get m k = Some r -> r ∈ m.*2.
Proof.
  intros H%Map_get_Some_elem. apply list_elem_of_fmap. by exists (k, r).
Qed.

Lemma Map_get_inj m k k' r :
  NoDup m.*2 -> Map_get m k = Some r -> Map_get m k' = Some r -> k = k'.
Proof.
  induction m as [|[k0 r0] m IH]; csimpl; [done|].
  intros [Hr Hnd]%NoDup_cons.
  repeat case_decide; intros; simplify_eq; auto;
    exfalso; apply Hr; eauto using Map_get_ref.
Qed.

Lemma Map_get_set m k r k' :
  Map_get (Map_set m k r) k' = if decide (k = k') then Some r else Map_get m k'.
Proof.
  induction m as [|[k0 r0] m IH]; csimpl.
  - repeat case_decide; congruence.
  - repeat (case_decide; csimpl; simplify_eq); try congruence.
Qed.

Lemma Map_keys_set m k r :
  (Map_set m k r).*1 = if Map_has m k then m.*1 else m.*1 ++ [k].
Proof.
  unfold Map_has. induction m as [|[k0 r0] m IH]; csimpl; [done|].
  case_decide; csimpl; subst; [done|].
  rewrite IH. by destruct (Map_get m k).
Qed.

Lemma Map_refs_set m k r r' :
  r' ∈ (Map_set m k r).*2 -> r' = r \/ r' ∈ m.*2.
Proof.
  induction m as [|[k0 r0] m IH]; csimpl.
  - rewrite list_elem_of_singleton. auto.
  - case_decide; csimpl; rewrite !elem_of_cons; naive_solver.
Qed.

Lemma Map_refs_set_NoDup m k r :
  NoDup m.*2 -> r ∉ m.*2 -> NoDup (Map_set m k r).*2.
Proof.
  induction m as [|[k0 r0] m IH]; csimpl; intros Hnd Hr.
  - apply NoDup_singleton.
  - apply NoDup_cons in Hnd as [H0 Hnd].
    apply not_elem_of_cons in Hr as [Hne Hr].
    case_decide; csimpl; apply NoDup_cons; split; auto.
    intros [->|?]%Map_refs_set; done.
Qed.

Lemma Map_keys_set_NoDup m k r : NoDup m.*1 -> NoDup (Map_set m k r).*1.
Proof.
  intros Hnd. rewrite Map_keys_set. unfold Map_has.
  destruct (Map_get m k) eqn:E; [done|].
  apply NoDup_app. split_and!; [done| |apply NoDup_singleton].
  intros x Hx ->%list_elem_of_singleton.
  apply Map_get_None in E. done.
Qed.

Lemma Map_delete_sub m k x : x ∈ Map_delete m k -> x ∈ m.
Proof.
  induction m as [|[k0 r0] m IH]; csimpl; [done|].
  case_decide; rewrite ?elem_of_cons; naive_solver.
Qed.

Lemma Map_keys_delete m k :
  NoDup m.*1 -> (Map_delete m k).*1 = List.filter (fun k' => negb (bool_decide (k' = k))) m.*1.
Proof.
  induction m as [|[k0 r0] m IH]; csimpl; [done|].
  intros [Hk Hnd]%NoDup_cons. case_decide; subst.
  - rewrite bool_decide_eq_true_2 by done. csimpl.
    clear IH Hnd. induction m as [|[k1 r1] m IH]; csimpl; [done|].
    csimpl in Hk. apply not_elem_of_cons in Hk as [Hne Hk].
    rewrite bool_decide_eq_false_2 by done. csimpl. f_equal. auto.
  - rewrite bool_decide_eq_false_2 by done. csimpl. f_equal. auto.
Qed.

Lemma Map_delete_absent m k : k ∉ m.*1 -> Map_delete m k = m.
Proof.
  induction m as [|[k0 r0] m IH]; csimpl; [done|].
  intros [Hne Hk]%not_elem_of_cons. rewrite decide_False by done.
  f_equal. auto.
Qed.

Lemma Map_get_delete m k k' :
  NoDup m.*1 ->
  Map_get (Map_delete m k) k' = if decide (k = k') then None else Map_get m k'.
Proof.
  induction m as [|[k0 r0] m IH]; csimpl; intros Hnd.
  - by case_decide.
  - apply NoDup_cons in Hnd as [Hk Hnd].
    repeat (case_decide; csimpl; simplify_eq); auto.
    all: try (by apply Map_get_None).
    all: rewrite IH by done; by rewrite ?decide_True, ?decide_False by done.
Qed.

Lemma Map_keys_delete_NoDup m k : NoDup m.*1 -> NoDup (Map_delete m k).*1.
Proof.
  induction m as [|[k0 r0] m IH]; csimpl; [done|].
  intros [Hk Hnd]%NoDup_cons. case_decide; [done|].
  csimpl. apply NoDup_cons. split; [|auto].
  intros [[k1 r1] [-> Hin]]%list_elem_of_fmap.
  apply Map_delete_sub in Hin. apply Hk. apply list_elem_of_fmap.
  by exists (k1, r1).
Qed.

Lemma Map_refs_delete m k r : r ∈ (Map_delete m k).*2 -> r ∈ m.*2.
Proof.
  intros [x [-> H]]%list_elem_of_fmap. apply Map_delete_sub in H.
  apply list_elem_of_fmap. by exists x.
Qed.

Lemma Map_refs_delete_NoDup m k : NoDup m.*2 -> NoDup (Map_delete m k).*2.
Proof.
  induction m as [|[k0 r0] m IH]; csimpl; [done|].
  intros [Hk Hnd]%NoDup_cons. case_decide; [done|].
  csimpl. apply NoDup_cons. split; [|auto].
  intros Hin%Map_refs_delete. done.
Qed.

Lemma Map_delete_set_fresh m k r :
  k ∉ m.*1 -> Map_delete (Map_set m k r) k = m.
Proof.
  induction m as [|[k0 r0] m IH]; csimpl.
  - intros _. by rewrite decide_True.
  - intros [Hne Hk]%not_elem_of_cons.
    rewrite decide_False by done. csimpl. rewrite decide_False by done.
    f_equal. auto.
Qed.

End MapLemmas.

(** ** Lemmas on [split] *)

Section SplitLemmas.

Implicit Types (s t u : string) (sep : ascii).

Lemma split_on_nonempty sep s : split_on sep s <> [].
Proof.
  destruct s as [|c s]; simpl; [done|].
  case_decide; [done|]. by destruct (split_on sep s).
Qed.

Lemma split_on_app sep t u :
  split_on sep (t +:+ String sep u) = split_on sep t ++ split_on sep u.
Proof.
  induction t as [|c t IH]; simpl.
  - by rewrite decide_True.
  - case_decide; [by rewrite IH|]. rewrite IH.
    pose proof (split_on_nonempty sep t).
    by destruct (split_on sep t).
Qed.

Lemma split_space_empty_token names :
  has_empty_token names -> "" ∈ split_space names.
Proof.
  unfold split_space.
  intros [->|[[t ->]|[[t ->]|(t & u & ->)]]].
  - by left.
  - simpl. left.
  - rewrite split_on_app. apply elem_of_app. right. by left.
  - change (t +:+ "  " +:+ u) with (t +:+ String " " (String " " u)).
    rewrite split_on_app. apply elem_of_app. right. simpl. left.
Qed.

Lemma occurrences_elem k names : k ∈ names <-> 0 < occurrences k names.
Proof.
  unfold occurrences. induction names as [|n names IH]; simpl.
  - split; [intros H; by apply elem_of_nil in H|lia].
  - rewrite elem_of_cons, IH. case_bool_decide; simpl; [|naive_solver].
    split; [lia|auto].
Qed.

End SplitLemmas.

(** ** Lemmas on worlds *)

Section WorldLemmas.

Context {U : Type}.
Implicit Types (w : World U) (n m : string) (r d : nat) (f : Value).

Lemma listenerCount_length w n : listenerCount n w = length (listeners_of w n).
Proof.
  unfold listenerCount, listeners_of. by destruct (Map_get _ _).
Qed.

Lemma listeners_eq w n : listeners n w = (length (store w), snapshot w n).
Proof.
  unfold listeners, snapshot, listeners_of, alloc.
  by destruct (Map_get _ _).
Qed.

Lemma array_at_snapshot w n :
  array_at (snapshot w n) (length (store w)) = listeners_of w n.
Proof.
  unfold array_at, snapshot. simpl.
  by rewrite lookup_app_r, Nat.sub_diag by lia.
Qed.

Lemma eventNames_key w n :
  n ∈ eventNames w <-> is_Some (Map_get (_eventMap w) n).
Proof. apply Map_get_key. Qed.

Lemma listeners_of_absent w n : n ∉ eventNames w -> listeners_of w n = [].
Proof.
  intros H%Map_get_None. unfold listeners_of. by rewrite H.
Qed.

Lemma listeners_of_present w n : listeners_of w n <> [] -> n ∈ eventNames w.
Proof.
  intros H. destruct (decide (n ∈ eventNames w)) as [|Hn]; [done|].
  by apply listeners_of_absent in Hn.
Qed.

(** The sequences depend on the map and on the arrays it holds only. *)
Lemma listeners_of_ext w w' n :
  _eventMap w' = _eventMap w ->
  (forall r, r ∈ refs w -> store w' !! r = store w !! r) ->
  listeners_of w' n = listeners_of w n.
Proof.
  intros Hm Hs. unfold listeners_of, array_at. rewrite Hm.
  destruct (Map_get _ _) as [r|] eqn:E; [|done].
  rewrite Hs; [done|]. eapply Map_get_ref, E.
Qed.

Lemma heap_okb_ok w : heap_okb w = true -> heap_ok w.
Proof.
  unfold heap_okb. rewrite !andb_true_iff, !bool_decide_eq_true.
  intros [[Hk Hr] Hv]. split; [done|done|].
  rewrite forallb_forall in Hv. intros r Hin%list_elem_of_In.
  by apply Nat.ltb_lt, Hv.
Qed.

Lemma registry_invb_ok w : registry_invb w = true -> registry_inv w.
Proof.
  unfold registry_invb. rewrite forallb_forall. intros Hall n. split.
  - intros [r Hr]%Map_get_key. unfold listeners_of. rewrite Hr.
    apply Map_get_Some_elem, list_elem_of_In, Hall in Hr. simpl in Hr.
    by destruct (array_at w r).
  - apply listeners_of_present.
Qed.

Lemma heap_ok_new (u : U) : heap_ok (new_EventEmitter u).
Proof. by apply heap_okb_ok. Qed.

Lemma registry_inv_new (u : U) : registry_inv (new_EventEmitter u).
Proof.
  intros n. split; [intros H; by apply elem_of_nil in H|done].
Qed.

Lemma same_registry_refl w : same_registry w w.
Proof. done. Qed.

Lemma same_registry_trans w1 w2 w3 :
  same_registry w1 w2 -> same_registry w2 w3 -> same_registry w1 w3.
Proof.
  intros (?&?&?) (?&?&?). split_and!; [congruence| |congruence].
  intros n. etrans; eauto.
Qed.

Lemma same_registry_count w w' n :
  same_registry w w' -> listenerCount n w' = listenerCount n w.
Proof. intros (_&H&_). by rewrite !listenerCount_length, H. Qed.

Lemma same_registry_ext w w' :
  heap_ok w ->
  _eventMap w' = _eventMap w ->
  _maxListeners w' = _maxListeners w ->
  (forall r, r < length (store w) -> store w' !! r = store w !! r) ->
  same_registry w w'.
Proof.
  intros Hok Hm Hx Hs. split_and!; [unfold eventNames; by rewrite Hm| |done].
  intros n. apply listeners_of_ext; [done|].
  intros r Hr. apply Hs. by apply Hok.
Qed.

Lemma same_registry_snapshot w n : heap_ok w -> same_registry w (snapshot w n).
Proof.
  intros Hok. apply same_registry_ext; try done.
  intros r Hr. simpl. by rewrite lookup_app_l.
Qed.

Lemma log_from_refl d w : log_from d w w.
Proof. exists []. by rewrite app_nil_r. Qed.

Lemma log_from_trans d w1 w2 w3 :
  log_from d w1 w2 -> log_from d w2 w3 -> log_from d w1 w3.
Proof.
  intros (e1&H1&F1) (e2&H2&F2). exists (e1 ++ e2). split.
  - by rewrite H2, H1, app_assoc.
  - by apply Forall_app.
Qed.

Lemma log_from_mono d d' w w' : d <= d' -> log_from d' w w' -> log_from d w w'.
Proof.
  intros Hd (e&He&F). exists e. split; [done|].
  eapply Forall_impl; [exact F|]. simpl. intros. lia.
Qed.

Lemma frame_refl w : frame w w.
Proof. split; [done|]. intros r _ Hr. done. Qed.

Lemma frame_trans w1 w2 w3 : frame w1 w2 -> frame w2 w3 -> frame w1 w3.
Proof.
  intros [L1 F1] [L2 F2]. split; [lia|].
  intros r Hr Hn. destruct (F1 r Hr Hn) as [E1 N1].
  destruct (F2 r) as [E2 N2]; [lia|done|]. split; [congruence|done].
Qed.

Lemma evolves_refl d w : heap_ok w -> evolves d w w.
Proof.
  intros Hok. split; [done|done|apply frame_refl|apply log_from_refl].
Qed.

Lemma evolves_trans d w1 w2 w3 :
  evolves d w1 w2 -> evolves d w2 w3 -> evolves d w1 w3.
Proof.
  intros [] []. split; eauto using frame_trans, log_from_trans.
Qed.

Lemma evolves_mono d d' w w' : d <= d' -> evolves d' w w' -> evolves d w w'.
Proof. intros Hd []. split; eauto using log_from_mono. Qed.

(** A world that differs by new arrays, or outside map, store and log. *)
Lemma evolves_ext d w w' :
  heap_ok w ->
  _eventMap w' = _eventMap w ->
  calls w' = calls w ->
  length (store w) <= length (store w') ->
  (forall r, r < length (store w) -> store w' !! r = store w !! r) ->
  evolves d w w'.
Proof.
  intros Hok Hm Hc Hl Hs.
  assert (Hls : forall n, listeners_of w' n = listeners_of w n).
  { intros n. apply listeners_of_ext; [done|]. intros r Hr. apply Hs.
    by apply Hok. }
  split.
  - destruct Hok as [Hk Hr Hv].
    split; unfold eventNames, refs, Map_keys in *; rewrite ?Hm; auto.
    intros r Hin. specialize (Hv r Hin). lia.
  - intros Hinv n. unfold eventNames. rewrite Hm, Hls. apply Hinv.
  - split; [done|]. intros r Hr Hn. split; [auto|].
    unfold refs. by rewrite Hm.
  - exists []. by rewrite app_nil_r.
Qed.

(** What a caller observes after each kind of update. *)
Lemma listeners_of_delete w w' n k :
  heap_ok w ->
  _eventMap w' = Map_delete (_eventMap w) n ->
  store w' = store w ->
  listeners_of w' k = if decide (n = k) then [] else listeners_of w k.
Proof.
  intros Hok Hm Hs. unfold listeners_of, array_at.
  rewrite Hm, Hs, Map_get_delete by apply Hok. by case_decide.
Qed.

Lemma eventNames_delete w w' n :
  heap_ok w ->
  _eventMap w' = Map_delete (_eventMap w) n ->
  eventNames w' =
    List.filter (fun k' => negb (bool_decide (k' = n))) (eventNames w).
Proof.
  intros Hok Hm. unfold eventNames, Map_keys. rewrite Hm.
  apply Map_keys_delete, Hok.
Qed.

Lemma listeners_of_install w w' n r l extra k :
  heap_ok w ->
  _eventMap w' = Map_set (_eventMap w) n r ->
  store w' = store w ++ extra ->
  store w' !! r = Some l ->
  listeners_of w' k = if decide (n = k) then l else listeners_of w k.
Proof.
  intros Hok Hm Hs Hl. unfold listeners_of, array_at.
  rewrite Hm, Map_get_set.
  case_decide; [by rewrite Hl|].
  destruct (Map_get _ _) as [r'|] eqn:E; [|done].
  rewrite Hs, lookup_app_l; [done|]. eapply Hok, Map_get_ref, E.
Qed.

Lemma eventNames_install w w' n r :
  _eventMap w' = Map_set (_eventMap w) n r ->
  eventNames w' =
    if decide (n ∈ eventNames w) then eventNames w else eventNames w ++ [n].
Proof.
  intros Hm. unfold eventNames, Map_keys. rewrite Hm, Map_keys_set.
  unfold Map_has. destruct (Map_get _ _) eqn:E.
  - rewrite decide_True; [done|]. apply Map_get_key. by rewrite E.
  - rewrite decide_False; [done|]. by apply Map_get_None.
Qed.

Lemma listeners_of_mutate w w' n r g k :
  heap_ok w ->
  Map_get (_eventMap w) n = Some r ->
  _eventMap w' = _eventMap w ->
  store w' = alter g r (store w) ->
  listeners_of w' k =
    if decide (n = k) then g (listeners_of w n) else listeners_of w k.
Proof.
  intros Hok Hn Hm Hs.
  assert (Hrv : r < length (store w)) by (eapply Hok, Map_get_ref, Hn).
  unfold listeners_of, array_at. rewrite Hm, Hs, Hn.
  case_decide; subst.
  - rewrite Hn, list_lookup_alter_eq.
    destruct (lookup_lt_is_Some_2 _ _ Hrv) as [l ->]. done.
  - destruct (Map_get _ k) as [r'|] eqn:E; [|done].
    rewrite list_lookup_alter_ne; [done|]. intros ->.
    destruct Hok. eauto using Map_get_inj.
Qed.

(** The entry of a name is deleted. *)
Lemma evolves_delete d w w' n :
  heap_ok w ->
  _eventMap w' = Map_delete (_eventMap w) n ->
  store w' = store w ->
  calls w' = calls w ->
  evolves d w w'.
Proof.
  intros Hok Hm Hs Hc.
  pose proof (fun k => listeners_of_delete w w' n k Hok Hm Hs) as Hls.
  pose proof (eventNames_delete w w' n Hok Hm) as Hks.
  split.
  - destruct Hok as [Hk Hr Hv].
    split; unfold eventNames, refs, Map_keys in *; rewrite ?Hm, ?Hs;
      auto using Map_keys_delete_NoDup, Map_refs_delete_NoDup.
    intros r Hin%Map_refs_delete. auto.
  - intros Hinv k. rewrite Hks, Hls, list_elem_of_In, filter_In.
    rewrite <- list_elem_of_In, negb_true_iff, bool_decide_eq_false.
    case_decide; subst; [naive_solver|]. rewrite (Hinv k). naive_solver.
  - split; [by rewrite Hs|]. intros r Hr Hn. split; [by rewrite Hs|].
    unfold refs. rewrite Hm. intros H%Map_refs_delete. done.
  - exists []. by rewrite Hc, app_nil_r.
Qed.

(** The entry of a name is set to a new, non-empty array. *)
Lemma evolves_install d w w' n r l extra :
  heap_ok w ->
  _eventMap w' = Map_set (_eventMap w) n r ->
  store w' = store w ++ extra ->
  calls w' = calls w ->
  length (store w) <= r ->
  store w' !! r = Some l ->
  l <> [] ->
  evolves d w w'.
Proof.
  intros Hok Hm Hs Hc Hr Hl Hne.
  assert (Hfresh : r ∉ refs w).
  { intros Hin. apply Hok in Hin. lia. }
  pose proof (fun k => listeners_of_install w w' n r l extra k Hok Hm Hs Hl)
    as Hls.
  split.
  - destruct Hok as [Hk Hrn Hv].
    split; unfold eventNames, refs, Map_keys in *; rewrite ?Hm;
      auto using Map_keys_set_NoDup, Map_refs_set_NoDup.
    intros r' [->|Hr']%Map_refs_set.
    + by eapply lookup_lt_Some.
    + rewrite Hs, length_app. specialize (Hv r' Hr'). lia.
  - intros Hinv k. rewrite Hls, (eventNames_install w w' n r Hm).
    destruct (decide (n = k)) as [->|Hnk].
    + split; [done|]. intros _. case_decide; [done|].
      apply elem_of_app. right. by left.
    + rewrite <- (Hinv k). case_decide; [done|].
      rewrite elem_of_app, list_elem_of_singleton. naive_solver.
  - split; [rewrite Hs, length_app; lia|]. intros r' Hr' Hn. split.
    + by rewrite Hs, lookup_app_l.
    + unfold refs. rewrite Hm. intros [->|?]%Map_refs_set; [lia|done].
  - exists []. by rewrite Hc, app_nil_r.
Qed.

(** An array of the map is changed in place and stays non-empty. *)
Lemma evolves_mutate d w w' n r g :
  heap_ok w ->
  Map_get (_eventMap w) n = Some r ->
  _eventMap w' = _eventMap w ->
  store w' = alter g r (store w) ->
  calls w' = calls w ->
  (forall l, g l <> []) ->
  evolves d w w'.
Proof.
  intros Hok Hn Hm Hs Hc Hg.
  pose proof (fun k => listeners_of_mutate w w' n r g k Hok Hn Hm Hs) as Hls.
  split.
  - destruct Hok as [Hk Hrn Hv].
    split; unfold eventNames, refs, Map_keys in *; rewrite ?Hm, ?Hs; auto.
    intros r' Hr'. rewrite length_alter. auto.
  - intros Hinv k. unfold eventNames. rewrite Hm, Hls.
    case_decide; subst; [|apply Hinv].
    split; [intros _; apply Hg|]. intros _.
    apply Map_get_key. by rewrite Hn.
  - split; [by rewrite Hs, length_alter|]. intros r' Hr' Hn'. split.
    + rewrite Hs, list_lookup_alter_ne; [done|]. intros ->.
      apply Hn'. eapply Map_get_ref, Hn.
    + unfold refs. by rewrite Hm.
  - exists []. by rewrite Hc, app_nil_r.
Qed.

(** An invocation is entered in the log. *)
Lemma evolves_enter d w f args :
  heap_ok w -> evolves d w (with_calls (calls w ++ [(d, f, args)]) w).
Proof.
  intros Hok. split.
  - by destruct Hok.
  - intros Hinv k. apply (Hinv k).
  - apply (frame_refl w).
  - eexists. split; [done|]. by apply Forall_singleton.
Qed.

End WorldLemmas.

(** ** The methods evolve the world *)

Section MethodLemmas.

Context {U : Type}.
Variable global_name : option string.
Implicit Types (w : World U) (n m : string) (r d : nat) (f : Value).

Lemma post_trans {A} d w w' (o : Outcome U A) :
  evolves d w w' -> post d w' o -> post d w o.
Proof. intros H. destruct o; simpl; eauto using evolves_trans. Qed.

Lemma post_bind {A B} d w (m : M U A) (k : A -> M U B) :
  post d w (m w) ->
  (forall a w', m w = Ok a w' -> evolves d w w' -> post d w' (k a w')) ->
  post d w (bind m k w).
Proof.
  unfold bind. intros Hm Hk. destruct (m w) as [a w'| |]; simpl in *; auto.
  eapply post_trans; eauto.
Qed.

Lemma post_mono {A} d d' w (o : Outcome U A) :
  d <= d' -> post d' w o -> post d w o.
Proof. intros Hd. destruct o; simpl; eauto using evolves_mono. Qed.

Lemma alter_last {A} (g : A -> A) (s : list A) (x : A) :
  alter g (length s) (s ++ [x]) = s ++ [g x].
Proof.
  induction s as [|y s IH]; simpl; [done|]. f_equal. apply IH.
Qed.

Lemma strict_equals_function l f :
  is_function f = true -> strict_equals l f = bool_decide (l = f).
Proof. by destruct f, l. Qed.

(** *** addListener *)

Lemma addListener_step_post d n f prepend w :
  heap_ok w -> post d w (addListener_step global_name n f prepend w).
Proof.
  intros Hok. unfold addListener_step, bind, Map_has.
  destruct (SFeqb _ _); [destruct global_name|]; simpl;
    try (by apply evolves_refl).
  all: destruct (Map_get (_eventMap w) n) as [r|] eqn:E; simpl.
  all: rewrite ?E, ?Map_get_set, ?decide_True by done.
  all: destruct prepend; unfold Array_push, Array_unshift; simpl.
  all: rewrite ?alter_last.
  all: try (eapply (evolves_mutate _ w _ n r); simpl; eauto;
            intros l; by destruct l).
  all: eapply (evolves_install _ w _ n (length (store w)) [f]); simpl; eauto.
  all: by rewrite lookup_app_r, Nat.sub_diag by lia.
Qed.

Lemma addListener_step_added n f prepend w :
  heap_ok w ->
  is_Some global_name \/
    SFeqb (number_of_nat (listenerCount n w)) (maxListeners w) = false ->
  exists w', addListener_step global_name n f prepend w = Ok tt w' /\
    added n f prepend w w'.
Proof.
  intros Hok Hg. unfold addListener_step, bind, Map_has.
  set (w1 := if SFeqb (number_of_nat (listenerCount n w)) (maxListeners w)
             then match global_name with
                  | Some g => with_console (console w ++ [warning w g]) w
                  | None => w
                  end
             else w).
  assert (Hw1 : (if SFeqb (number_of_nat (listenerCount n w)) (maxListeners w)
      then match global_name with
           | Some g => Ok tt (with_console (console w ++ [warning w g]) w)
           | None => Thrown (ReferenceError "name is not defined") w
           end
      else Ok tt w) = Ok tt w1).
  { subst w1. destruct (SFeqb _ _); [|done].
    destruct Hg as [[g ->]|]; done. }
  rewrite Hw1. clear Hw1.
  assert (H1 : _eventMap w1 = _eventMap w /\ store w1 = store w /\
               _maxListeners w1 = _maxListeners w /\ closures w1 = closures w /\
               calls w1 = calls w /\ user w1 = user w).
  { subst w1. destruct (SFeqb _ _); [destruct global_name|]; done. }
  destruct H1 as (Hm & Hs & Hx & Hc & Hl & Hu). clearbody w1.
  rewrite Hm.
  destruct (Map_get (_eventMap w) n) as [r|] eqn:E; simpl.
  - rewrite Hm, E.
    assert (Hin : n ∈ eventNames w) by (apply Map_get_key; by rewrite E).
    destruct prepend; (eexists; split; [reflexivity|]);
      unfold added, Array_push, Array_unshift; simpl;
      (split_and!; [| | |done..]).
    all: try (eapply (ev_heap_ok 0 w), (evolves_mutate 0 w _ n r); simpl;
              rewrite ?Hs; eauto; intros l; by destruct l).
    all: try (unfold eventNames at 1; simpl; rewrite Hm;
              by rewrite decide_True).
    all: intros k; erewrite (listeners_of_mutate w _ n r); simpl;
      rewrite ?Hs; eauto; done.
  - rewrite Hm, Hs, Map_get_set, decide_True by done.
    destruct prepend; (eexists; split; [reflexivity|]);
      unfold added, Array_push, Array_unshift; simpl;
      rewrite alter_last; (split_and!; [| | |done..]).
    all: try (eapply (ev_heap_ok 0 w),
                (evolves_install 0 w _ n (length (store w)) [f]);
              simpl; eauto;
              by rewrite ?lookup_app_r, ?Nat.sub_diag by lia).
    all: try (eapply (eventNames_install w _ n (length (store w))); simpl;
              eauto).
    all: intros k;
      erewrite (listeners_of_install w _ n (length (store w)) [f]); simpl;
      eauto; rewrite ?lookup_app_r, ?Nat.sub_diag by lia; try done.
    all: unfold listeners_of; rewrite E; by case_decide.
Qed.

Lemma filter_not_listener_absent ls f :
  is_function f = true -> f ∉ ls ->
  List.filter (fun l => negb (strict_equals l f)) ls = ls.
Proof.
  intros Hf. induction ls as [|l ls IH]; simpl; [done|].
  intros [Hne Hin]%not_elem_of_cons.
  rewrite strict_equals_function, bool_decide_eq_false_2 by done.
  simpl. f_equal. auto.
Qed.

Lemma filter_not_listener_self f :
  is_function f = true ->
  List.filter (fun l => negb (strict_equals l f)) [f] = [].
Proof.
  intros Hf. simpl.
  by rewrite strict_equals_function, bool_decide_eq_true_2 by done.
Qed.

Lemma filter_not_listener_elem ls f l :
  is_function f = true ->
  l ∈ List.filter (fun l => negb (strict_equals l f)) ls <-> l ∈ ls /\ l <> f.
Proof.
  intros Hf. rewrite !list_elem_of_In, filter_In.
  rewrite strict_equals_function, negb_true_iff, bool_decide_eq_false by done.
  done.
Qed.

Lemma filter_not_key_last (names : list string) n :
  n ∉ names ->
  List.filter (fun k => negb (bool_decide (k = n))) (names ++ [n]) = names.
Proof.
  intros Hn. rewrite List.filter_app. simpl.
  rewrite bool_decide_eq_true_2, app_nil_r by done. simpl.
  induction names as [|k names IH]; simpl; [done|].
  apply not_elem_of_cons in Hn as [Hne Hn].
  rewrite bool_decide_eq_false_2 by done. simpl. f_equal. auto.
Qed.

Lemma bind_ret_unit {A} (m : M U A) w :
  bind (do _ <- m; ret tt) (fun _ => ret tt) w = (do _ <- m; ret tt) w.
Proof. unfold bind. by destruct (m w). Qed.

Lemma post_holds {A} d w (o : Outcome U A) :
  registry_inv w -> post d w o ->
  holds_after (fun w' => heap_ok w' /\ registry_inv w') o.
Proof.
  intros Hinv. destruct o; simpl; try done; intros Hev; split;
    try apply Hev; done.
Qed.

Lemma for_of_post {A} d (l : list A) (body : A -> M U unit) w :
  (forall a w', heap_ok w' -> post d w' (body a w')) ->
  heap_ok w -> post d w (for_of l body w).
Proof.
  intros Hb. revert w. induction l as [|a l IH]; intros w Hok; simpl.
  - by apply evolves_refl.
  - apply post_bind; [by apply Hb|]. intros _ w' _ Hev.
    apply IH. apply Hev.
Qed.

Lemma addListener_post d names f prepend w :
  heap_ok w -> post d w (addListener global_name names f prepend w).
Proof.
  intros Hok. unfold addListener. destruct (negb _); simpl.
  - by apply evolves_refl.
  - apply for_of_post; [|done]. intros. by apply addListener_step_post.
Qed.

(** The loop of [addListener] over a list of names. *)
Lemma addListener_loop_added_where names f prepend w :
  heap_ok w ->
  warning_does_not_throw global_name names w ->
  exists w',
    for_of names (fun n => addListener_step global_name n f prepend) w =
      Ok tt w' /\
    heap_ok w' /\
    (forall k, listeners_of w' k =
       if prepend
       then replicate (occurrences k names) f ++ listeners_of w k
       else listeners_of w k ++ replicate (occurrences k names) f) /\
    _maxListeners w' = _maxListeners w /\
    calls w' = calls w.
Proof.
  revert w. induction names as [|n names IH]; intros w Hok Hfree; simpl.
  - exists w. split_and!; try done. intros k. destruct prepend; simpl; [done|].
    by rewrite app_nil_r.
  - destruct (addListener_step_added n f prepend w Hok)
      as (w1 & Hadd & Hok1 & _ & Hls1 & Hmax1 & _ & Hcalls1 & _).
    { destruct Hfree as [Hg|Hfree]; [by left|right].
      rewrite <- (Nat.add_0_r (listenerCount n w)).
      apply Hfree; [left|]. unfold occurrences. simpl.
      rewrite bool_decide_eq_true_2 by done. simpl. lia. }
    destruct (IH w1 Hok1) as (w' & Hloop & Hok' & Hls & Hmax & Hcalls).
    { destruct Hfree as [Hg|Hfree]; [by left|right].
      intros k i Hk Hi. unfold maxListeners. rewrite Hmax1.
      rewrite listenerCount_length, Hls1.
      destruct (decide (n = k)) as [->|Hne].
      - replace (length (if prepend then f :: listeners_of w k
                         else listeners_of w k ++ [f]) + i)
          with (listenerCount k w + S i).
        + apply Hfree; [left|]. unfold occurrences in *. simpl.
          rewrite bool_decide_eq_true_2 by done. simpl. lia.
        + rewrite listenerCount_length. destruct prepend; simpl; [lia|].
          rewrite length_app. simpl. lia.
      - rewrite <- listenerCount_length.
        apply Hfree; [by right|]. unfold occurrences in *. simpl.
        by rewrite bool_decide_eq_false_2 by done. }
    exists w'. unfold bind. rewrite Hadd.
    split_and!; [done|done| |congruence|congruence].
    intros k. rewrite Hls, Hls1. unfold occurrences. simpl.
    destruct (decide (n = k)) as [->|Hne].
    + rewrite bool_decide_eq_true_2 by done. simpl. destruct prepend.
      * by rewrite app_comm_cons, replicate_cons_app, <- app_assoc.
      * by rewrite <- app_assoc.
    + by rewrite bool_decide_eq_false_2 by done.
Qed.

Lemma addListener_loop_added names f prepend w :
  heap_ok w ->
  is_Some global_name ->
  exists w',
    for_of names (fun n => addListener_step global_name n f prepend) w =
      Ok tt w' /\
    heap_ok w' /\
    (forall k, listeners_of w' k =
       if prepend
       then replicate (occurrences k names) f ++ listeners_of w k
       else listeners_of w k ++ replicate (occurrences k names) f) /\
    _maxListeners w' = _maxListeners w /\
    calls w' = calls w.
Proof.
  intros Hok Hg. revert w Hok.
  induction names as [|n names IH]; intros w Hok; simpl.
  - exists w. split_and!; try done. intros k. destruct prepend; simpl; [done|].
    by rewrite app_nil_r.
  - destruct (addListener_step_added n f prepend w Hok)
      as (w1 & Hadd & Hok1 & _ & Hls1 & Hmax1 & _ & Hcalls1 & _); [by left|].
    destruct (IH w1 Hok1) as (w' & Hloop & Hok' & Hls & Hmax & Hcalls).
    exists w'. unfold bind. rewrite Hadd.
    split_and!; [done|done| |congruence|congruence].
    intros k. rewrite Hls, Hls1. unfold occurrences. simpl.
    destruct (decide (n = k)) as [->|Hne].
    + rewrite bool_decide_eq_true_2 by done. simpl. destruct prepend.
      * by rewrite app_comm_cons, replicate_cons_app, <- app_assoc.
      * by rewrite <- app_assoc.
    + by rewrite bool_decide_eq_false_2 by done.
Qed.

Lemma once_post d names f prepend w :
  heap_ok w -> post d w (once global_name names f prepend w).
Proof.
  intros Hok. unfold once.
  eapply post_trans; [|apply addListener_post].
  - apply evolves_ext; done.
  - by destruct Hok.
Qed.

Lemma heap_ok_extend w extra :
  heap_ok w -> heap_ok (with_store (store w ++ extra) w).
Proof.
  intros Hok. eapply ev_heap_ok, (evolves_ext 0 w); simpl; try done.
  - rewrite length_app. lia.
  - intros r Hr. by rewrite lookup_app_l.
Qed.

Lemma evolves_snapshot d w n : heap_ok w -> evolves d w (snapshot w n).
Proof.
  intros Hok. apply evolves_ext; simpl; try done.
  - rewrite length_app. lia.
  - intros r Hr. by rewrite lookup_app_l.
Qed.

(** *** removeListener, up to its emission *)

Lemma evolves_removed d w n f : heap_ok w -> evolves d w (removed w n f).
Proof.
  intros Hok. unfold removed.
  destruct (List.filter _ _) as [|x new] eqn:E.
  - eapply evolves_trans.
    + eapply (evolves_ext d w (with_store (store w ++ [_; _]) w)); simpl;
        try done.
      * rewrite length_app. lia.
      * intros r Hr. by rewrite lookup_app_l.
    + eapply evolves_delete; simpl; try done.
      by apply heap_ok_extend.
  - eapply (evolves_install d w _ n (S (length (store w))) (x :: new));
      simpl; try done.
    + lia.
    + rewrite lookup_app_r by lia.
      by replace (S (length (store w)) - length (store w)) with 1 by lia.
Qed.

Lemma removed_listeners_of w n f k :
  heap_ok w ->
  listeners_of (removed w n f) k =
    if decide (n = k)
    then List.filter (fun l => negb (strict_equals l f)) (listeners_of w n)
    else listeners_of w k.
Proof.
  intros Hok. unfold removed.
  destruct (List.filter _ _) as [|x new] eqn:E.
  - erewrite (listeners_of_delete
                (with_store (store w ++ [listeners_of w n; []]) w));
      simpl; try done.
    + case_decide; [done|]. apply listeners_of_ext; [done|].
      intros r Hr. simpl. rewrite lookup_app_l; [done|]. by apply Hok.
    + by apply heap_ok_extend.
  - erewrite (listeners_of_install w _ n (S (length (store w))) (x :: new));
      simpl; try done.
    rewrite lookup_app_r by lia.
    by replace (S (length (store w)) - length (store w)) with 1 by lia.
Qed.

Lemma removed_eventNames w n f :
  heap_ok w ->
  eventNames (removed w n f) =
    match List.filter (fun l => negb (strict_equals l f)) (listeners_of w n) with
    | [] => List.filter (fun k => negb (bool_decide (k = n))) (eventNames w)
    | _ :: _ => eventNames w
    end.
Proof.
  intros Hok. unfold removed.
  destruct (List.filter _ _) as [|x new] eqn:E.
  - erewrite (eventNames_delete
                (with_store (store w ++ [listeners_of w n; []]) w));
      simpl; try done.
    by apply heap_ok_extend.
  - erewrite (eventNames_install w _ n (S (length (store w)))); simpl; [|done].
    rewrite decide_True; [done|]. apply listeners_of_present.
    intros Hnil. by rewrite Hnil in E.
Qed.

Lemma removed_fields w n f :
  _maxListeners (removed w n f) = _maxListeners w /\
  closures (removed w n f) = closures w /\
  console (removed w n f) = console w /\
  calls (removed w n f) = calls w /\
  user (removed w n f) = user w.
Proof. unfold removed. by destruct (List.filter _ _). Qed.

Section WithCall.

Variable call : Value -> list Value -> M U unit.

(** The loop body of [removeListener] updates the map, then emits
    "removeListener" whenever the filtered sequence is not empty: the two
    arrays it compares are always distinct objects. *)
Lemma removeListener_step_eq n f w :
  removeListener_step call n f w =
    match List.filter (fun l => negb (strict_equals l f)) (listeners_of w n) with
    | [] => Ok tt (removed w n f)
    | _ :: _ =>
        (do _ <- emit call "removeListener" [VString n; f]; ret tt)
          (removed w n f)
    end.
Proof.
  unfold removeListener_step, removed. rewrite listeners_eq.
  unfold Array_filter, alloc. rewrite array_at_snapshot. simpl.
  unfold array_at at 1. simpl.
  rewrite length_app, <- app_assoc. simpl.
  rewrite lookup_app_r by lia.
  replace (length (store w) + 1 - length (store w)) with 1 by lia. simpl.
  replace (length (store w) =? length (store w) + 1)%nat with false
    by (symmetry; apply Nat.eqb_neq; lia).
  replace (length (store w) + 1) with (S (length (store w))) by lia.
  by destruct (List.filter _ _).
Qed.

(** Removing a function that is not in a non-empty sequence: the registry
    stays as it was, and "removeListener" is emitted all the same. *)
Lemma removeListener_step_absent n f w :
  heap_ok w ->
  is_function f = true ->
  f ∉ listeners_of w n ->
  listeners_of w n <> [] ->
  same_registry w (removed w n f) /\
  removeListener_step call n f w =
    (do _ <- emit call "removeListener" [VString n; f]; ret tt)
      (removed w n f).
Proof.
  intros Hok Hf Hnot Hne.
  pose proof (filter_not_listener_absent _ _ Hf Hnot) as Hfil.
  split.
  - split_and!.
    + rewrite removed_eventNames, Hfil by done.
      by destruct (listeners_of w n).
    + intros k. rewrite removed_listeners_of, Hfil by done.
      by case_decide; subst.
    + unfold maxListeners. by destruct (removed_fields w n f) as (-> & _).
  - rewrite removeListener_step_eq, Hfil. by destruct (listeners_of w n).
Qed.

Lemma emit_no_listeners n args w :
  listeners_of w n = [] -> emit call n args w = Ok false (snapshot w n).
Proof.
  intros Hn. unfold emit. by rewrite listeners_eq, array_at_snapshot, Hn.
Qed.

Lemma filter_not_listener_idem ls f :
  List.filter (fun l => negb (strict_equals l f))
    (List.filter (fun l => negb (strict_equals l f)) ls) =
  List.filter (fun l => negb (strict_equals l f)) ls.
Proof.
  induction ls as [|l ls IH]; simpl; [done|].
  destruct (negb (strict_equals l f)) eqn:E; simpl; [|done].
  by rewrite E, IH.
Qed.

(** The loop of [removeListener] over a list of names, when nothing
    listens to "removeListener". *)
Lemma removeListener_loop_silent names f w :
  heap_ok w ->
  listeners_of w "removeListener" = [] ->
  exists w',
    for_of names (fun n => removeListener_step call n f) w = Ok tt w' /\
    heap_ok w' /\
    listeners_of w' "removeListener" = [] /\
    (forall k, listeners_of w' k =
       if bool_decide (k ∈ names)
       then List.filter (fun l => negb (strict_equals l f)) (listeners_of w k)
       else listeners_of w k) /\
    _maxListeners w' = _maxListeners w /\
    calls w' = calls w.
Proof.
  revert w. induction names as [|n names IH]; intros w Hok Hsilent; simpl.
  - exists w. by split_and!.
  - pose proof (evolves_removed 0 w n f Hok) as Hev.
    pose proof (fun k => removed_listeners_of w n f k Hok) as Hls1.
    destruct (removed_fields w n f) as (Hmax1 & _ & _ & Hcalls1 & _).
    assert (Hsilent1 : listeners_of (removed w n f) "removeListener" = []).
    { rewrite Hls1. case_decide; subst; by rewrite Hsilent. }
    assert (exists w1, removeListener_step call n f w = Ok tt w1 /\
              heap_ok w1 /\
              (forall k, listeners_of w1 k = listeners_of (removed w n f) k) /\
              _maxListeners w1 = _maxListeners w /\ calls w1 = calls w)
      as (w1 & Hstep & Hok1 & Hsame & Hmax & Hcalls).
    { rewrite removeListener_step_eq.
      destruct (List.filter _ _).
      - exists (removed w n f). split_and!; try done. apply Hev.
      - unfold bind. rewrite emit_no_listeners by done. simpl.
        eexists. split_and!; [done| | |done|done].
        + apply heap_ok_extend, Hev.
        + apply same_registry_snapshot, Hev. }
    destruct (IH w1 Hok1) as (w' & Hloop & Hok' & Hsilent' & Hls & Hm & Hc).
    { by rewrite Hsame. }
    exists w'. unfold bind. rewrite Hstep.
    split_and!; [done|done|done| |congruence|congruence].
    intros k. rewrite Hls, Hsame, Hls1.
    destruct (decide (n = k)) as [->|Hne].
    + rewrite (bool_decide_eq_true_2 (k ∈ k :: names)) by left.
      case_bool_decide; [apply filter_not_listener_idem|done].
    + assert (k ∈ n :: names <-> k ∈ names) as Hiff.
      { rewrite elem_of_cons. naive_solver. }
      by rewrite (bool_decide_ext _ _ Hiff).
Qed.

Variable d : nat.
Hypothesis call_evolves : call_ok d call.

Lemma forEach_from_post arr args k remaining w :
  heap_ok w -> post d w (forEach_from call arr args k remaining w).
Proof.
  revert k w. induction remaining as [|rem IH]; intros k w Hok; simpl.
  - by apply evolves_refl.
  - destruct (array_at w arr !! k); [|by apply IH].
    apply post_bind; [by apply call_evolves|].
    intros _ w' _ Hev. apply IH, Hev.
Qed.

Lemma emit_post n args w : heap_ok w -> post d w (emit call n args w).
Proof.
  intros Hok. unfold emit. rewrite listeners_eq.
  pose proof (evolves_snapshot d w n Hok) as Hev.
  destruct (_ =? 0)%nat; [done|].
  eapply post_trans; [exact Hev|].
  apply post_bind.
  - apply forEach_from_post, Hev.
  - intros _ w' _ Hev'. apply evolves_refl, Hev'.
Qed.

Lemma removeListener_step_post n f w :
  heap_ok w -> post d w (removeListener_step call n f w).
Proof.
  intros Hok. rewrite removeListener_step_eq.
  pose proof (evolves_removed d w n f Hok) as Hev.
  destruct (List.filter _ _); [done|].
  eapply post_trans; [exact Hev|].
  apply post_bind.
  - apply emit_post, Hev.
  - intros _ w' _ Hev'. apply evolves_refl, Hev'.
Qed.

Lemma removeListener_post names f w :
  heap_ok w -> post d w (removeListener call names f w).
Proof.
  intros Hok. unfold removeListener. destruct (negb _); simpl.
  - by apply evolves_refl.
  - apply for_of_post; [|done]. intros. by apply removeListener_step_post.
Qed.

(** The loop of [emit] runs over its own copy of the sequence.  No
    listener can reach that array, so the loop invokes the elements the copy
    had when it was made. *)
Lemma forEach_from_snapshot arr args ls remaining k w :
  heap_ok w ->
  arr ∉ refs w ->
  store w !! arr = Some ls ->
  remaining = length ls - k ->
  forEach_from call arr args k remaining w =
    invoke_each call (drop k ls) args w.
Proof.
  revert k w. induction remaining as [|rem IH]; intros k w Hok Hfr Harr Hrem.
  - rewrite drop_ge by lia. done.
  - assert (Hk : k < length ls) by lia.
    destruct (lookup_lt_is_Some_2 _ _ Hk) as [x Hx].
    rewrite (drop_S _ _ _ Hx). simpl.
    unfold array_at. rewrite Harr. simpl. rewrite Hx.
    unfold invoke_each. simpl. unfold bind.
    pose proof (call_evolves x args w Hok) as Hev.
    destruct (call x args w) as [[] w'| |]; [|done..]. simpl in Hev.
    destruct Hev as [Hok' _ [Hlen Hfrm] _].
    assert (Hr : arr < length (store w)) by (by eapply lookup_lt_Some).
    destruct (Hfrm arr Hr Hfr) as [Hsame Hfr'].
    apply IH; [done|done|congruence|lia].
Qed.

Lemma emit_snapshot n args w :
  heap_ok w ->
  emit call n args w =
    match listeners_of w n with
    | [] => Ok false (snapshot w n)
    | ls => (do _ <- invoke_each call ls args; ret true) (snapshot w n)
    end.
Proof.
  intros Hok. unfold emit. rewrite listeners_eq, array_at_snapshot.
  destruct (listeners_of w n) as [|x ls] eqn:E; [done|].
  simpl length. simpl Nat.eqb. cbv iota.
  unfold bind at 1. unfold Array_forEach.
  rewrite array_at_snapshot, E.
  rewrite (forEach_from_snapshot _ _ (x :: ls)).
  - done.
  - apply (evolves_snapshot 0 w n Hok).
  - intros Hin. apply Hok in Hin. simpl in Hin. lia.
  - simpl. rewrite lookup_app_r, Nat.sub_diag by lia. simpl. by rewrite E.
  - simpl. lia.
Qed.

Lemma set_maxListeners_post v w :
  heap_ok w -> post d w (set_maxListeners v w).
Proof.
  intros Hok. unfold set_maxListeners.
  destruct v; simpl; try by apply evolves_refl.
  repeat (case_match; simpl); try (by apply evolves_refl);
    apply evolves_ext; done.
Qed.

Lemma perform_post op w :
  heap_ok w -> post d w (perform global_name call op w).
Proof.
  intros Hok. destruct op; simpl.
  - pose proof (addListener_post d eventNames0 listener prepend w Hok).
    by destruct (addListener _ _ _ _ _).
  - pose proof (removeListener_post eventNames0 listener w Hok).
    by destruct (removeListener _ _ _ _).
  - pose proof (emit_post eventName args w Hok).
    by destruct (emit _ _ _ _).
  - pose proof (once_post d eventNames0 listener prepend w Hok).
    by destruct (once _ _ _ _ _).
  - eapply evolves_delete; done.
  - by apply evolves_refl.
  - rewrite listeners_eq. by apply evolves_snapshot.
  - by apply evolves_refl.
  - by apply evolves_refl.
  - pose proof (set_maxListeners_post n w Hok).
    by destruct (set_maxListeners _ _).
  - pose proof (call_evolves f args w Hok).
    by destruct (call _ _ _).
Qed.

Lemma run_post p w : heap_ok w -> post d w (run global_name call p w).
Proof.
  revert w. induction p as [|e|op k IH|k IH|u p IH]; intros w Hok; simpl.
  - by apply evolves_refl.
  - by apply evolves_refl.
  - pose proof (perform_post op w Hok) as Hp.
    destruct (perform _ _ _ _) as [r w'|e w'|]; simpl in *; auto.
    eapply post_trans; [exact Hp|]. apply IH, Hp.
  - by apply IH.
  - eapply post_trans; [|apply IH].
    + apply evolves_ext; done.
    + by destruct Hok.
Qed.

End WithCall.

Variable body : nat -> list Value -> Prog U.

(** Every invocation evolves the world, whatever the listeners do. *)
Lemma apply_post fuel : forall d, call_ok d (apply global_name body fuel d).
Proof.
  induction fuel as [|fuel IH]; intros d f args w Hok; simpl; [done|].
  pose proof (evolves_enter d w f args Hok) as Hen.
  assert (Hdeep : call_ok d (apply global_name body fuel (S d))).
  { intros f' args' w' Hok'. eapply post_mono; [|by apply IH]. lia. }
  destruct f; simpl; try by apply evolves_refl.
  - unfold bind, modify. eapply post_trans; [exact Hen|].
    apply run_post; [done|]. apply Hen.
  - unfold bind at 1, modify. eapply post_trans; [exact Hen|].
    apply post_bind.
    + apply Hdeep, Hen.
    + intros _ w' _ Hev. apply removeListener_post; [done|]. apply Hev.
Qed.

End MethodLemmas.

(** ** The log of invocations *)

Section LogLemmas.

Context {U : Type}.
Variable global_name : option string.
Variable body : nat -> list Value -> Prog U.
Implicit Types (w : World U) (n : string) (d : nat) (f : Value).

Lemma top_calls_app l1 l2 : top_calls (l1 ++ l2) = top_calls l1 ++ top_calls l2.
Proof. apply omap_app. Qed.

Lemma top_calls_deep ext : Forall (fun e : Invocation => 1 <= e.1.1) ext -> top_calls ext = [].
Proof.
  induction 1 as [|[[d f] args] ext Hd _ IH]; [done|].
  unfold top_calls in *. simpl in *. destruct d; [lia|]. simpl. exact IH.
Qed.

(** An invocation enters itself in the log at its own depth; whatever it
    invokes in turn is entered below. *)
Lemma apply_enters fuel d f args w :
  heap_ok w ->
  is_function f = true ->
  post (S d) (with_calls (calls w ++ [(d, f, args)]) w)
    (apply global_name body fuel d f args w).
Proof.
  intros Hok Hf. destruct fuel as [|fuel]; simpl; [done|].
  assert (Hok' : heap_ok (with_calls (calls w ++ [(d, f, args)]) w))
    by (by destruct Hok).
  destruct f; try done; unfold bind at 1, modify.
  - apply run_post; [apply apply_post|done].
  - apply post_bind; [by apply apply_post|].
    intros _ w' _ Hev. apply removeListener_post; [apply apply_post|].
    apply Hev.
Qed.

Lemma apply_returns fuel d f args w w' :
  heap_ok w ->
  apply global_name body fuel d f args w = Ok tt w' ->
  is_function f = true /\
  exists ext, calls w' = calls w ++ (d, f, args) :: ext /\
    Forall (fun e : Invocation => S d <= e.1.1) ext.
Proof.
  intros Hok Happ.
  assert (Hf : is_function f = true).
  { destruct fuel; [done|]. by destruct f. }
  split; [done|].
  pose proof (apply_enters fuel d f args w Hok Hf) as Hp.
  rewrite Happ in Hp. simpl in Hp.
  destruct Hp as [_ _ _ (ext & He & Hd)]. simpl in He.
  exists ext. by rewrite He, <- app_assoc.
Qed.

Lemma invoke_each_top_calls fuel ls args w w' :
  heap_ok w ->
  invoke_each (apply global_name body fuel 0) ls args w = Ok tt w' ->
  heap_ok w' /\
  top_calls (calls w') = top_calls (calls w) ++ map (fun l => (l, args)) ls.
Proof.
  revert w. induction ls as [|l ls IH]; intros w Hok; unfold invoke_each; simpl.
  - intros [= <-]. by rewrite app_nil_r.
  - unfold bind. destruct (apply _ _ _ _ _ _ _) as [[] w1| |] eqn:E; [|done..].
    intros Hrest.
    pose proof (apply_post global_name body fuel 0 l args w Hok) as Hp.
    rewrite E in Hp. simpl in Hp.
    destruct (apply_returns _ _ _ _ _ _ Hok E) as (_ & ext & He & Hd).
    destruct (IH w1 (ev_heap_ok _ _ _ Hp) Hrest) as [Hok' Htop].
    split; [done|]. rewrite Htop, He.
    change ((0, l, args) :: ext) with ([(0, l, args)] ++ ext).
    rewrite !top_calls_app, (top_calls_deep ext Hd), app_nil_r.
    by rewrite <- app_assoc.
Qed.

(** What an [emit] from the top level has done when it returns. *)
Lemma emit_top_calls fuel n args w b w' :
  heap_ok w ->
  emit (apply global_name body fuel 0) n args w = Ok b w' ->
  b = bool_decide (listeners_of w n <> []) /\
  top_calls (calls w') =
    top_calls (calls w) ++ map (fun l => (l, args)) (listeners_of w n).
Proof.
  intros Hok. rewrite (emit_snapshot _ 0) by (done || apply apply_post).
  destruct (listeners_of w n) as [|l ls] eqn:E.
  - intros [= <- <-]. by rewrite app_nil_r.
  - unfold bind. destruct (invoke_each _ _ _ _) as [[] w1| |] eqn:Hi;
      [|done..].
    intros [= <- <-].
    apply invoke_each_top_calls in Hi as [_ Htop];
      [|by apply heap_ok_extend].
    split; [done|]. exact Htop.
Qed.

End LogLemmas.

(** ** Listeners that do not call the emitter *)

Section QuietLemmas.

Context {U : Type}.
Variable global_name : option string.
Variable body : nat -> list Value -> Prog U.
Implicit Types (w : World U) (n : string) (d : nat) (f l : Value).

Lemma logged_refl w : heap_ok w -> logged w [] w.
Proof. intros Hok. split_and!; [done|done|by rewrite app_nil_r]. Qed.

Lemma logged_trans w1 w2 w3 e1 e2 :
  logged w1 e1 w2 -> logged w2 e2 w3 -> logged w1 (e1 ++ e2) w3.
Proof.
  intros (_ & H1 & C1) (Hok & H2 & C2). split_and!; [done| |].
  - intros k. by rewrite H2, H1.
  - by rewrite C2, C1, app_assoc.
Qed.

Lemma logged_snapshot w n : heap_ok w -> logged w [] (snapshot w n).
Proof.
  intros Hok. split_and!.
  - by apply heap_ok_extend.
  - by apply same_registry_snapshot.
  - simpl. by rewrite app_nil_r.
Qed.

Lemma run_quiet call p w :
  quiet p ->
  exists u, run global_name call p w = Ok tt (with_user u (with_calls (calls w) w)).
Proof.
  intros Hq. revert w. induction Hq as [|k _ IH|u p _ IH]; intros w; simpl.
  - exists (user w). by destruct w.
  - apply IH.
  - destruct (IH (with_user u w)) as [u' ->]. by exists u'.
Qed.

Lemma apply_quiet fuel d l args w :
  heap_ok w ->
  quiet_listener body l ->
  exists w',
    apply global_name body (S fuel) d l args w = Ok tt w' /\
    logged w [(d, l, args)] w'.
Proof.
  intros Hok (id & -> & Hq). simpl. unfold bind, modify.
  destruct (run_quiet (apply global_name body fuel (S d)) (body id args)
              (with_calls (calls w ++ [(d, VFunction id, args)]) w) (Hq args))
    as [u ->].
  eexists. split; [done|]. split_and!; [by destruct Hok|done|done].
Qed.

Lemma invoke_each_app call (l1 l2 : list Value) args w :
  invoke_each call (l1 ++ l2) args w =
    (do _ <- invoke_each call l1 args; invoke_each call l2 args) w.
Proof.
  unfold invoke_each. revert w. induction l1 as [|l l1 IH]; intros w; simpl.
  - done.
  - unfold bind in *. destruct (call l args w) as [[] w'| |]; [|done..].
    apply IH.
Qed.

Lemma invoke_each_quiet fuel d ls args w :
  heap_ok w ->
  Forall (quiet_listener body) ls ->
  exists w',
    invoke_each (apply global_name body (S fuel) d) ls args w = Ok tt w' /\
    logged w (map (fun l => (d, l, args)) ls) w'.
Proof.
  intros Hok Hq. revert w Hok.
  induction Hq as [|l ls Hl _ IH]; intros w Hok.
  - exists w. split; [done|]. by apply logged_refl.
  - destruct (apply_quiet fuel d l args w Hok Hl) as (w1 & Happ & Hlog1).
    destruct (IH w1) as (w' & Hrest & Hlog); [apply Hlog1|].
    exists w'. unfold invoke_each in *. cbn [for_of]. unfold bind.
    rewrite Happ. split; [done|]. apply (logged_trans _ _ _ _ _ Hlog1 Hlog).
Qed.

Lemma emit_quiet fuel d n args w :
  heap_ok w ->
  Forall (quiet_listener body) (listeners_of w n) ->
  exists w',
    emit (apply global_name body (S fuel) d) n args w =
      Ok (bool_decide (listeners_of w n <> [])) w' /\
    logged w (map (fun l => (d, l, args)) (listeners_of w n)) w'.
Proof.
  intros Hok Hq.
  rewrite (emit_snapshot _ d) by (done || apply apply_post).
  pose proof (logged_snapshot w n Hok) as Hsnap.
  destruct (listeners_of w n) as [|l ls] eqn:E.
  - eexists. split; [done|]. exact Hsnap.
  - destruct (invoke_each_quiet fuel d (l :: ls) args (snapshot w n))
      as (w' & Hinv & Hlog); [apply Hsnap|done|].
    exists w'. unfold bind. rewrite Hinv. split; [done|].
    apply (logged_trans _ _ _ _ _ Hsnap Hlog).
Qed.


Lemma Forall_List_filter {A} (P : A -> Prop) (g : A -> bool) (l : list A) :
  Forall P l -> Forall P (List.filter g l).
Proof.
  rewrite !Forall_forall. intros H x Hx%list_elem_of_In%filter_In.
  apply H, list_elem_of_In, Hx.
Qed.

(** The loop of [removeListener] over a list of names, when the listeners
    of "removeListener" do not call the emitter. *)
Lemma removeListener_loop_quiet fuel d names f w :
  heap_ok w ->
  Forall (quiet_listener body) (listeners_of w "removeListener") ->
  exists w',
    for_of names
      (fun n => removeListener_step (apply global_name body (S fuel) d) n f)
      w = Ok tt w' /\
    heap_ok w' /\
    (forall k, listeners_of w' k =
       if bool_decide (k ∈ names)
       then List.filter (fun l => negb (strict_equals l f)) (listeners_of w k)
       else listeners_of w k).
Proof.
  revert w. induction names as [|n names IH]; intros w Hok Hmeta;
    cbn [for_of].
  - exists w. by split_and!.
  - pose proof (evolves_removed 0 w n f Hok) as Hev.
    pose proof (fun k => removed_listeners_of w n f k Hok) as Hls1.
    assert (Hmeta1 : Forall (quiet_listener body)
                       (listeners_of (removed w n f) "removeListener")).
    { rewrite Hls1. case_decide; subst; [|done].
      by apply Forall_List_filter. }
    assert (exists w1,
              removeListener_step (apply global_name body (S fuel) d) n f w =
                Ok tt w1 /\
              heap_ok w1 /\
              (forall k, listeners_of w1 k = listeners_of (removed w n f) k))
      as (w1 & Hstep & Hok1 & Hsame).
    { rewrite removeListener_step_eq.
      destruct (List.filter _ _).
      - exists (removed w n f). split_and!; try done. apply Hev.
      - destruct (emit_quiet fuel d "removeListener" [VString n; f]
                    (removed w n f)) as (w1 & Hemit & Hok1 & Hls & _);
          [apply Hev|done|].
        unfold bind. rewrite Hemit. cbn [ret].
        exists w1. by split_and!. }
    destruct (IH w1 Hok1) as (w' & Hloop & Hok' & Hls).
    { by rewrite Hsame. }
    exists w'. unfold bind. rewrite Hstep.
    split_and!; [done|done|].
    intros k. rewrite Hls, Hsame, Hls1.
    destruct (decide (n = k)) as [->|Hne].
    + rewrite (bool_decide_eq_true_2 (k ∈ k :: names)) by left.
      case_bool_decide; [apply filter_not_listener_idem|done].
    + assert (k ∈ n :: names <-> k ∈ names) as Hiff.
      { rewrite elem_of_cons. naive_solver. }
      by rewrite (bool_decide_ext _ _ Hiff).
Qed.

(** The closure of [once], whatever [f] does: it invokes [f] on the
    arguments it was invoked on, and if [f] returns, it runs the loop body
    of [removeListener] on itself; in the world right after the update of
    the map, the closure is in the sequence of [n] no more. *)
Lemma onceListener_removes_itself fuel d c n f args w :
  split_space n = [n] ->
  apply global_name body (S fuel) d (VOnceListener c n f) args w =
    (do _ <- apply global_name body fuel (S d) f args;
     do _ <- removeListener_step (apply global_name body fuel (S d)) n
               (VOnceListener c n f);
     ret tt)
      (with_calls (calls w ++ [(d, VOnceListener c n f, args)]) w) /\
  forall w1, heap_ok w1 ->
    VOnceListener c n f ∉ listeners_of (removed w1 n (VOnceListener c n f)) n.
Proof.
  intros Hn. split.
  - cbn [apply]. unfold bind at 1, modify.
    unfold removeListener. cbn [is_function negb]. by rewrite Hn.
  - intros w1 Hok1. rewrite removed_listeners_of, decide_True by done.
    rewrite filter_not_listener_elem by done. by intros [_ ?].
Qed.

End QuietLemmas.

(** ** Properties of the methods *)

Section Claims.

Context {U : Type}.
Variable global_name : option string.
Variable body : nat -> list Value -> Prog U.
Implicit Types (w : World U) (n : string) (d : nat) (f v : Value).

(** C9: with a listener [v] that is not a function, [addListener] and
    [removeListener] throw at once, whatever the names and whatever is
    registered; the world in which they throw is the world they were called
    in, so no name was registered or deregistered. *)
Theorem listener_must_be_function call names v prepend w :
  is_function v = false ->
  addListener global_name names v prepend w =
    Thrown (TypeError "listener must be a function") w /\
  removeListener call names v w =
    Thrown (TypeError "listener must be a function") w.
Proof.
  intros Hv. unfold addListener, removeListener. by rewrite Hv.
Qed.

(** C2, as the code has it: the setter of [maxListeners] throws a
    TypeError for a value that is not a number and for NaN, a RangeError
    for a number below zero (negative infinity included), and leaves the
    stored value as it was in both cases; a zero of either sign stores
    positive infinity; every other number, positive infinity included, is
    stored as it is. *)
Theorem set_maxListeners_cases w :
  let type_error := Thrown (TypeError "maxListeners must be a number.") w in
  let range_error :=
    Thrown (RangeError "maxListeners cannot be set to a negative value.") w in
  set_maxListeners VUndefined w = type_error /\
  set_maxListeners VNull w = type_error /\
  (forall b, set_maxListeners (VBoolean b) w = type_error) /\
  (forall s, set_maxListeners (VString s) w = type_error) /\
  (forall id, set_maxListeners (VObject id) w = type_error) /\
  (forall id, set_maxListeners (VFunction id) w = type_error) /\
  (forall id names l,
     set_maxListeners (VOnceListener id names l) w = type_error) /\
  set_maxListeners (VNumber S754_nan) w = type_error /\
  (forall m e,
     set_maxListeners (VNumber (S754_finite true m e)) w = range_error) /\
  set_maxListeners (VNumber (S754_infinity true)) w = range_error /\
  (forall sign,
     set_maxListeners (VNumber (S754_zero sign)) w =
       Ok tt (with_maxListeners Infinity w)) /\
  (forall m e,
     set_maxListeners (VNumber (S754_finite false m e)) w =
       Ok tt (with_maxListeners (S754_finite false m e) w)) /\
  set_maxListeners (VNumber (S754_infinity false)) w =
    Ok tt (with_maxListeners Infinity w).
Proof.
  simpl. split_and!; done.
Qed.

(** C5: whatever the listeners do while they run (add listeners to [n],
    remove listeners from [n], emit), [emit(n, ...args)] invokes the
    listeners that were registered for [n] when the call started, each on
    [args], in their order, and nothing else: it is the sequential
    invocation of the elements of that sequence, which stops early only when
    one of them throws or does not return. *)
Theorem emit_invokes_snapshot fuel d n args w :
  heap_ok w ->
  emit (apply global_name body fuel d) n args w =
    match listeners_of w n with
    | [] => Ok false (snapshot w n)
    | ls =>
        (do _ <- invoke_each (apply global_name body fuel d) ls args; ret true)
          (snapshot w n)
    end.
Proof.
  intros Hok. eapply emit_snapshot; [|done]. apply apply_post.
Qed.

(** C3: without listeners for [n], [emit(n, ...args)] returns false in a
    world with the same registry and the same log, so nothing was invoked.
    Whenever [emit] returns, it returns true exactly when [n] had listeners,
    and the invocations it made are the listeners of [n], once each, in
    their order, each on [args].  It does return when the listeners of [n]
    do not call the emitter. *)
Theorem emit_returns fuel n args w :
  heap_ok w ->
  (listeners_of w n = [] ->
     emit (apply global_name body fuel 0) n args w = Ok false (snapshot w n) /\
     calls (snapshot w n) = calls w /\
     same_registry w (snapshot w n)) /\
  (forall b w',
     emit (apply global_name body fuel 0) n args w = Ok b w' ->
     b = bool_decide (listeners_of w n <> []) /\
     top_calls (calls w') =
       top_calls (calls w) ++ map (fun l => (l, args)) (listeners_of w n)) /\
  (Forall (quiet_listener body) (listeners_of w n) ->
   exists w',
     emit (apply global_name body (S fuel) 0) n args w =
       Ok (bool_decide (listeners_of w n <> [])) w').
Proof.
  intros Hok. split_and!.
  - intros Hnone. split_and!.
    + by apply emit_no_listeners.
    + done.
    + by apply same_registry_snapshot.
  - intros b w'. by apply emit_top_calls.
  - intros Hq.
    destruct (emit_quiet global_name body fuel 0 n args w Hok Hq)
      as (w' & Hemit & _).
    by exists w'.
Qed.

(** C6: a new emitter has an entry for a name exactly when the sequence
    of that name is not empty, and [addListener], [removeListener],
    [removeAllListeners], [once] and [emit] keep it so, in the world in
    which they return and in the world in which they throw, whatever the
    listeners do: no method leaves an entry with an empty sequence. *)
Theorem registry_inv_preserved fuel d w :
  heap_ok w ->
  registry_inv w ->
  let inv w' := heap_ok w' /\ registry_inv w' in
  (forall u, inv (new_EventEmitter u)) /\
  (forall names f prepend,
     holds_after inv (addListener global_name names f prepend w)) /\
  (forall names f,
     holds_after inv
       (removeListener (apply global_name body fuel d) names f w)) /\
  (forall n, inv (removeAllListeners n w)) /\
  (forall names f prepend,
     holds_after inv (once global_name names f prepend w)) /\
  (forall n args,
     holds_after inv (emit (apply global_name body fuel d) n args w)).
Proof.
  intros Hok Hinv inv. split_and!.
  - intros u. split; [apply heap_ok_new|apply registry_inv_new].
  - intros. eapply post_holds, (addListener_post _ d); done.
  - intros. eapply post_holds, removeListener_post; try done.
    apply apply_post.
  - intros n.
    assert (Hev : evolves d w (removeAllListeners n w))
      by (eapply evolves_delete; done).
    split; by apply Hev.
  - intros. eapply post_holds, (once_post _ d); done.
  - intros. eapply post_holds, emit_post; try done. apply apply_post.
Qed.

(** C4, as the code has it: for a single name [n] and a function [f] not
    registered for [n], [addListener(n, f)] followed by
    [removeListener(n, f)] brings the registry back.  When [n] had no
    listener, the pair returns in a world [w2] with the [eventNames],
    [listeners] (hence [listenerCount]) and [maxListeners] of the start, and
    nothing is emitted.  When [n] had listeners, the pair reaches such a
    world [w2] and then emits "removeListener" with [(n, f)] from it. *)
Theorem addListener_removeListener_round_trip call n f prepend w :
  heap_ok w ->
  registry_inv w ->
  split_space n = [n] ->
  is_function f = true ->
  f ∉ listeners_of w n ->
  is_Some global_name \/
    SFeqb (number_of_nat (listenerCount n w)) (maxListeners w) = false ->
  exists w1 w2,
    addListener global_name n f prepend w = Ok tt w1 /\
    same_registry w w2 /\
    removeListener call n f w1 =
      match listeners_of w n with
      | [] => Ok tt w2
      | _ :: _ =>
          (do _ <- emit call "removeListener" [VString n; f]; ret tt) w2
      end.
Proof.
  intros Hok Hinv Hn Hf Hnew Hg.
  destruct (addListener_step_added global_name n f prepend w Hok Hg)
    as (w1 & Hadd & Hok1 & Hnames & Hls & Hmax & _).
  exists w1, (removed w1 n f).
  assert (Hfil : List.filter (fun l => negb (strict_equals l f))
                   (listeners_of w1 n) = listeners_of w n).
  { rewrite Hls, decide_True by done. destruct prepend.
    - simpl. rewrite strict_equals_function, bool_decide_eq_true_2 by done.
      simpl. by apply filter_not_listener_absent.
    - rewrite List.filter_app, filter_not_listener_self by done.
      rewrite app_nil_r. by apply filter_not_listener_absent. }
  split_and!.
  - unfold addListener. rewrite Hf, Hn. simpl. unfold bind.
    by rewrite Hadd.
  - split_and!.
    + rewrite removed_eventNames, Hfil, Hnames by done.
      destruct (listeners_of w n) eqn:E.
      * rewrite decide_False; [|by rewrite (Hinv n), E; intros []].
        apply filter_not_key_last. by rewrite (Hinv n), E; intros [].
      * rewrite decide_True; [done|]. by rewrite (Hinv n), E.
    + intros k. rewrite removed_listeners_of, Hfil by done.
      rewrite Hls. by repeat case_decide; subst.
    + unfold maxListeners.
      destruct (removed_fields w1 n f) as (-> & _). done.
  - unfold removeListener. rewrite Hf, Hn. simpl.
    unfold bind at 1. rewrite removeListener_step_eq, Hfil.
    destruct (listeners_of w n); [done|].
    fold (bind (do _ <- emit call "removeListener" [VString n; f]; ret tt)
            (fun _ => ret tt) (removed w1 n f)).
    apply bind_ret_unit.
Qed.


(** C10: [split] keeps empty tokens, so a names string that is empty,
    starts or ends with a space, or has two spaces in a row registers [f]
    under the empty name: after [addListener] the empty name is among
    [eventNames], its [listenerCount] is positive and [f] is in its
    sequence.  An [emit] of the empty name that returns has returned true
    and has invoked [f] on the emitted arguments, whatever the listeners
    do; and it does return, true and with [f] invoked, when [f] and the
    listeners that the empty name had before do not call the emitter.
    This holds in every host where the warning does not throw. *)
Theorem empty_name_is_registered names f prepend fuel args w :
  heap_ok w ->
  has_empty_token names ->
  is_function f = true ->
  warning_does_not_throw global_name (split_space names) w ->
  exists w1,
    addListener global_name names f prepend w = Ok tt w1 /\
    "" ∈ eventNames w1 /\
    0 < listenerCount "" w1 /\
    f ∈ listeners_of w1 "" /\
    (forall b w2,
       emit (apply global_name body fuel 0) "" args w1 = Ok b w2 ->
       b = true /\
       exists invoked,
         top_calls (calls w2) = top_calls (calls w1) ++ invoked /\
         (f, args) ∈ invoked) /\
    (quiet_listener body f ->
     Forall (quiet_listener body) (listeners_of w "") ->
     exists w2 invoked,
       emit (apply global_name body (S fuel) 0) "" args w1 = Ok true w2 /\
       top_calls (calls w2) = top_calls (calls w1) ++ invoked /\
       (f, args) ∈ invoked).
Proof.
  intros Hok Htok Hf Hg.
  destruct (addListener_loop_added_where global_name (split_space names)
              f prepend w Hok Hg) as (w1 & Hloop & Hok1 & Hls & _).
  assert (Hin : f ∈ listeners_of w1 "").
  { rewrite Hls.
    apply split_space_empty_token, occurrences_elem in Htok.
    destruct prepend; apply elem_of_app; [left|right];
      apply elem_of_replicate; split; (done || lia). }
  assert (Hne : listeners_of w1 "" <> []).
  { intros Hnil. rewrite Hnil in Hin. by apply elem_of_nil in Hin. }
  assert (Htop : forall fuel' b w2,
            emit (apply global_name body fuel' 0) "" args w1 = Ok b w2 ->
            b = true /\
            exists invoked,
              top_calls (calls w2) = top_calls (calls w1) ++ invoked /\
              (f, args) ∈ invoked).
  { intros fuel' b w2 Hemit.
    destruct (emit_top_calls global_name body fuel' "" args w1 b w2 Hok1
                Hemit) as [-> Htop].
    split; [by rewrite bool_decide_eq_true_2|].
    eexists. split; [exact Htop|].
    apply list_elem_of_fmap. by exists f. }
  exists w1. split_and!.
  - unfold addListener. by rewrite Hf.
  - by apply listeners_of_present.
  - rewrite listenerCount_length. destruct (listeners_of w1 ""); [done|].
    simpl. lia.
  - done.
  - apply Htop.
  - intros Hqf Hq.
    destruct (emit_quiet global_name body fuel 0 "" args w1 Hok1)
      as (w2 & Hemit & _).
    { rewrite Hls. destruct prepend; apply Forall_app; split; try done;
        by apply Forall_replicate. }
    rewrite bool_decide_eq_true_2 in Hemit by done.
    destruct (Htop (S fuel) true w2 Hemit) as (_ & invoked & Hinv & Hfin).
    by exists w2, invoked.
Qed.


End Claims.

(** C2, as the claim has it: positive infinity is not a finite number,
    yet the setter accepts it and stores it; it throws no TypeError. *)
Lemma set_maxListeners_accepts_Infinity :
  set_maxListeners (VNumber (S754_infinity false)) (new_EventEmitter tt) =
    Ok tt (with_maxListeners Infinity (new_EventEmitter tt)) /\
  ~ (exists message w',
       set_maxListeners (VNumber (S754_infinity false)) (new_EventEmitter tt) =
         Thrown (TypeError message) w').
Proof.
  split; [reflexivity|]. intros (message & w' & H). discriminate H.
Qed.

(** C4, as the claim has it: on a new emitter where [A] listens to
    "removeListener", [B] is added to "x" and removed again; the pair
    returns and [A] was never invoked: nothing was emitted. *)
Lemma round_trip_emits_nothing :
  exists w0 w1 w2,
    addListener None "removeListener" Example.A false (new_EventEmitter tt) =
      Ok tt w0 /\
    listeners_of w0 "removeListener" = [Example.A] /\
    addListener None "x" Example.B false w0 = Ok tt w1 /\
    removeListener Example.call_idle "x" Example.B w1 = Ok tt w2 /\
    calls w2 = [].
Proof.
  do 3 eexists. split_and!; vm_compute; reflexivity.
Qed.

(** C9 at a concrete input: [undefined] as the listener. *)
Lemma listener_must_be_function_witness :
  is_function VUndefined = false /\
  addListener None "a b" VUndefined false (new_EventEmitter tt) =
    Thrown (TypeError "listener must be a function") (new_EventEmitter tt) /\
  removeListener (fun _ _ => ret tt) "a b" VUndefined (new_EventEmitter tt) =
    Thrown (TypeError "listener must be a function") (new_EventEmitter tt).
Proof.
  split; [reflexivity|].
  apply (listener_must_be_function None (fun _ _ => ret tt)
           "a b" VUndefined false (new_EventEmitter tt)).
  reflexivity.
Defined.

(** C1 on a concrete emitter: [A] listens to "removeListener", [B] to
    "x"; removing from "x" the function [C], which was never registered
    there, leaves the sequence of "x" as it was, and [A] is invoked with
    ("x", C). *)
Lemma removeListener_absent_emits :
  exists w1 w2 w3,
    addListener None "removeListener" Example.A false (new_EventEmitter tt) =
      Ok tt w1 /\
    addListener None "x" Example.B false w1 = Ok tt w2 /\
    (Example.C ∉ listeners_of w2 "x") /\
    removeListener Example.call_idle "x" Example.C w2 = Ok tt w3 /\
    listeners_of w3 "x" = listeners_of w2 "x" /\
    calls w2 = [] /\
    calls w3 = [(0, Example.A, [VString "x"; Example.C])].
Proof.
  do 3 eexists. split_and!; try (vm_compute; reflexivity).
  vm_compute. intros H. apply list_elem_of_singleton in H. discriminate H.
Qed.

(** C5 at a concrete input: [A], the first listener of "x", removes [B]
    from "x" and prepends [C]; the emission still invokes [A] then [B]. *)
Lemma emit_invokes_snapshot_witness :
  heap_ok Example.AB /\
  emit (apply None Example.body 3 0) "x" [] Example.AB =
    (do _ <- invoke_each (apply None Example.body 3 0)
               [Example.A; Example.B] [];
     ret true) (snapshot Example.AB "x").
Proof.
  split; [by apply heap_okb_ok|].
  apply (emit_invokes_snapshot None Example.body 3 0 "x" [] Example.AB).
  by apply heap_okb_ok.
Defined.

(** C3 at a concrete input: with [A] and [B] registered for "x",
    [emit("x", 1, 2)] returns true. *)
Lemma emit_returns_witness :
  heap_ok Example.AB /\
  exists w',
    emit (apply None Example.idle 1 0) "x" Example.one_two Example.AB =
      Ok true w' /\
    true = bool_decide (listeners_of Example.AB "x" <> []) /\
    top_calls (calls w') =
      top_calls (calls Example.AB) ++
      map (fun l => (l, Example.one_two)) (listeners_of Example.AB "x").
Proof.
  split; [by apply heap_okb_ok|].
  eexists. split; [vm_compute; reflexivity|].
  apply (emit_returns None Example.idle 1 "x" Example.one_two Example.AB).
  - by apply heap_okb_ok.
  - vm_compute. reflexivity.
Defined.

(** The emission of the example of C5, computed: [A] and [B] were invoked,
    [C], which [A] prepended, was not, and "x" is left with [C] and [A]. *)
Lemma emit_with_mutating_listener :
  exists w',
    emit (apply None Example.body 3 0) "x" [] Example.AB = Ok true w' /\
    top_calls (calls w') = [(Example.A, []); (Example.B, [])] /\
    listeners_of w' "x" = [Example.C; Example.A].
Proof.
  eexists. split_and!; vm_compute; reflexivity.
Qed.

(** Facts about the example emitter, by computation. *)
Lemma Example_AB_ok : heap_ok Example.AB /\ registry_inv Example.AB.
Proof. split; [by apply heap_okb_ok|by apply registry_invb_ok]. Defined.

Lemma Example_idle_quiet l : quiet_listener Example.idle (VFunction l).
Proof. exists l. split; [reflexivity|]. intros args. constructor. Defined.

(** C6 at a concrete input: the emitter with [A] and [B] on "x", where [A]
    removes [B] and prepends [C] when it runs. *)
Lemma registry_inv_preserved_witness :
  heap_ok Example.AB /\
  registry_inv Example.AB /\
  holds_after (fun w' => heap_ok w' /\ registry_inv w')
    (emit (apply None Example.body 3 0) "x" [] Example.AB) /\
  holds_after (fun w' => heap_ok w' /\ registry_inv w')
    (removeListener (apply None Example.body 3 0) "x" Example.A Example.AB).
Proof.
  destruct Example_AB_ok as [Hok Hinv].
  destruct (registry_inv_preserved None Example.body 3 0 Example.AB Hok Hinv)
    as (_ & _ & Hrem & _ & _ & Hemit).
  split_and!; [exact Hok|exact Hinv|apply Hemit|apply Hrem].
Defined.

(** C4 at a concrete input: [C] is added to "x", which has [A] and [B],
    and removed again. *)
Lemma addListener_removeListener_round_trip_witness :
  heap_ok Example.AB /\
  registry_inv Example.AB /\
  split_space "x" = ["x"] /\
  is_function Example.C = true /\
  (Example.C ∉ listeners_of Example.AB "x") /\
  SFeqb (number_of_nat (listenerCount "x" Example.AB))
    (maxListeners Example.AB) = false /\
  exists w1 w2,
    addListener None "x" Example.C false Example.AB = Ok tt w1 /\
    same_registry Example.AB w2 /\
    removeListener Example.call_idle "x" Example.C w1 =
      (do _ <- emit Example.call_idle "removeListener"
                 [VString "x"; Example.C];
       ret tt) w2.
Proof.
  destruct Example_AB_ok as [Hok Hinv].
  assert (Hnew : Example.C ∉ listeners_of Example.AB "x").
  { vm_compute. intros H. apply elem_of_cons in H as [H|H]; [discriminate H|].
    apply list_elem_of_singleton in H. discriminate H. }
  split_and!; [exact Hok|exact Hinv|reflexivity|reflexivity|exact Hnew|
               reflexivity|].
  apply (addListener_removeListener_round_trip None Example.call_idle "x"
           Example.C false Example.AB Hok Hinv);
    [reflexivity|reflexivity|exact Hnew|].
  right. reflexivity.
Defined.



(** C10 at a concrete input: two spaces in a row, in a host that does
    not define [name]. *)
Lemma empty_name_is_registered_witness :
  heap_ok Example.AB /\
  has_empty_token "a  b" /\
  is_function Example.C = true /\
  warning_does_not_throw None (split_space "a  b") Example.AB /\
  exists w1 w2 invoked,
    addListener None "a  b" Example.C false Example.AB = Ok tt w1 /\
    "" ∈ eventNames w1 /\
    0 < listenerCount "" w1 /\
    emit (apply None Example.idle 1 0) "" [VNull] w1 = Ok true w2 /\
    top_calls (calls w2) = top_calls (calls w1) ++ invoked /\
    (Example.C, [VNull]) ∈ invoked.
Proof.
  destruct Example_AB_ok as [Hok _].
  assert (Htok : has_empty_token "a  b").
  { right. right. right. by exists "a", "b". }
  assert (Hfree : warning_does_not_throw None (split_space "a  b")
                    Example.AB).
  { right. intros k i Hk Hi. vm_compute in Hk.
    repeat (apply elem_of_cons in Hk as [->|Hk]);
      [| | |by apply elem_of_nil in Hk];
      (destruct i as [|i]; [reflexivity|vm_compute in Hi; lia]). }
  split_and!; [exact Hok|exact Htok|reflexivity|exact Hfree|].
  destruct (empty_name_is_registered None Example.idle "a  b" Example.C
              false 0 [VNull] Example.AB Hok Htok eq_refl Hfree)
    as (w1 & Hadd & Hin & Hcount & _ & _ & Hemit).
  destruct (Hemit (Example_idle_quiet 2)) as (w2 & invoked & H1 & H2 & H3).
  { constructor. }
  exists w1, w2, invoked. split_and!; assumption.
Defined.


(** ** Further properties of the methods *)

Section Further.

Context {U : Type}.
Variable global_name : option string.
Variable body : nat -> list Value -> Prog U.
Implicit Types (w : World U) (n : string) (d : nat) (f v l : Value).

Lemma removeListener_single call n f w :
  split_space n = [n] ->
  is_function f = true ->
  removeListener call n f w =
    (do _ <- removeListener_step call n f; ret tt) w.
Proof.
  intros Hn Hf. unfold removeListener. by rewrite Hf, Hn.
Qed.

Lemma addListener_single n f prepend w :
  split_space n = [n] ->
  is_function f = true ->
  addListener global_name n f prepend w =
    (do _ <- addListener_step global_name n f prepend; ret tt) w.
Proof.
  intros Hn Hf. unfold addListener. by rewrite Hf, Hn.
Qed.

(** X1: [addListener] with one name: the listener goes to the front or to the
    back of the sequence of that name, every other sequence stays, a name
    that was registered keeps its place in [eventNames] and a new name goes
    last; nothing is invoked. *)
Theorem addListener_places_listener n f prepend w :
  heap_ok w ->
  split_space n = [n] ->
  is_function f = true ->
  is_Some global_name \/
    SFeqb (number_of_nat (listenerCount n w)) (maxListeners w) = false ->
  exists w',
    addListener global_name n f prepend w = Ok tt w' /\
    listeners_of w' n =
      (if prepend then f :: listeners_of w n else listeners_of w n ++ [f]) /\
    (forall k, k <> n -> listeners_of w' k = listeners_of w k) /\
    eventNames w' =
      (if decide (n ∈ eventNames w) then eventNames w
       else eventNames w ++ [n]) /\
    listenerCount n w' = S (listenerCount n w) /\
    calls w' = calls w.
Proof.
  intros Hok Hn Hf Hg.
  destruct (addListener_step_added global_name n f prepend w Hok Hg)
    as (w' & Hadd & _ & Hnames & Hls & _ & _ & Hcalls & _).
  exists w'. split_and!.
  - rewrite addListener_single by done. unfold bind. by rewrite Hadd.
  - by rewrite Hls, decide_True.
  - intros k Hk. by rewrite Hls, decide_False.
  - done.
  - rewrite !listenerCount_length, Hls, decide_True by done.
    destruct prepend; [done|]. rewrite length_app. simpl. lia.
  - done.
Qed.

(** X2: [removeAllListeners(n)] leaves [n] without listeners and out of
    [eventNames], keeps every other sequence and the order of the other
    names, invokes nothing, and changes nothing at all when [n] had no
    entry. *)
Theorem removeAllListeners_clears n w :
  heap_ok w ->
  listeners_of (removeAllListeners n w) n = [] /\
  listenerCount n (removeAllListeners n w) = 0 /\
  (n ∉ eventNames (removeAllListeners n w)) /\
  (forall k, k <> n ->
     listeners_of (removeAllListeners n w) k = listeners_of w k) /\
  eventNames (removeAllListeners n w) =
    List.filter (fun k => negb (bool_decide (k = n))) (eventNames w) /\
  calls (removeAllListeners n w) = calls w /\
  (n ∉ eventNames w -> removeAllListeners n w = w).
Proof.
  intros Hok.
  pose proof (fun k => listeners_of_delete w (removeAllListeners n w) n k
                         Hok eq_refl eq_refl) as Hls.
  pose proof (eventNames_delete w (removeAllListeners n w) n Hok eq_refl)
    as Hnames.
  split_and!.
  - by rewrite Hls, decide_True.
  - by rewrite listenerCount_length, Hls, decide_True.
  - rewrite Hnames, list_elem_of_In, filter_In.
    rewrite bool_decide_eq_true_2 by done. by intros [_ ?].
  - intros k Hk. by rewrite Hls, decide_False.
  - done.
  - done.
  - intros Hn. unfold removeAllListeners.
    rewrite Map_delete_absent by done. by destruct w.
Qed.

Lemma filter_not_key_absent (names : list string) n :
  n ∉ names ->
  List.filter (fun k => negb (bool_decide (k = n))) names = names.
Proof.
  induction names as [|k names IH]; simpl; [done|].
  intros [Hne Hn]%not_elem_of_cons.
  rewrite bool_decide_eq_false_2 by done. simpl. f_equal. auto.
Qed.

Lemma filter_not_listener_all ls f :
  is_function f = true ->
  Forall (fun l => l = f) ls ->
  List.filter (fun l => negb (strict_equals l f)) ls = [].
Proof.
  intros Hf. induction 1 as [|l ls -> _ IH]; simpl; [done|].
  by rewrite strict_equals_function, bool_decide_eq_true_2 by done.
Qed.

(** X3: Removing the only listener of a name, in however many copies it is
    registered: the entry of the name is deleted, so the name leaves
    [eventNames] and its count is 0; the other names keep their sequences
    and their order; no "removeListener" event is emitted, so nothing is
    invoked, whatever listens to it. *)
Theorem removeListener_last_deletes_entry call n f w :
  heap_ok w ->
  split_space n = [n] ->
  is_function f = true ->
  Forall (fun l => l = f) (listeners_of w n) ->
  exists w',
    removeListener call n f w = Ok tt w' /\
    (n ∉ eventNames w') /\
    listenerCount n w' = 0 /\
    (forall k, k <> n -> listeners_of w' k = listeners_of w k) /\
    eventNames w' =
      List.filter (fun k => negb (bool_decide (k = n))) (eventNames w) /\
    calls w' = calls w.
Proof.
  intros Hok Hn Hf Hall.
  pose proof (filter_not_listener_all _ _ Hf Hall) as Hfil.
  pose proof (removed_eventNames w n f Hok) as Hnames.
  rewrite Hfil in Hnames.
  exists (removed w n f). split_and!.
  - rewrite removeListener_single by done. unfold bind.
    by rewrite removeListener_step_eq, Hfil.
  - rewrite Hnames, list_elem_of_In, filter_In.
    rewrite bool_decide_eq_true_2 by done. by intros [_ ?].
  - by rewrite listenerCount_length, removed_listeners_of, decide_True, Hfil.
  - intros k Hk. by rewrite removed_listeners_of, decide_False.
  - done.
  - by destruct (removed_fields w n f) as (_ & _ & _ & -> & _).
Qed.

Lemma removeListener_step_unregistered call n f w :
  heap_ok w ->
  n ∉ eventNames w ->
  removeListener_step call n f w = Ok tt (removed w n f) /\
  heap_ok (removed w n f) /\
  same_registry w (removed w n f) /\
  calls (removed w n f) = calls w.
Proof.
  intros Hok Hn.
  pose proof (listeners_of_absent w n Hn) as Hnil.
  split_and!.
  - by rewrite removeListener_step_eq, Hnil.
  - apply (evolves_removed 0 w n f Hok).
  - split_and!.
    + rewrite removed_eventNames, Hnil by done. simpl.
      by apply filter_not_key_absent.
    + intros k. rewrite removed_listeners_of, Hnil by done.
      case_decide; subst; by rewrite ?Hnil.
    + unfold maxListeners. by destruct (removed_fields w n f) as (-> & _).
  - by destruct (removed_fields w n f) as (_ & _ & _ & -> & _).
Qed.

(** X4: [removeListener] on names that are not registered does nothing: it
    returns, the registry is as before, and nothing is invoked, whatever
    listens to "removeListener". *)
Theorem removeListener_unregistered_names call names f w :
  heap_ok w ->
  is_function f = true ->
  (forall k, k ∈ split_space names -> k ∉ eventNames w) ->
  exists w',
    removeListener call names f w = Ok tt w' /\
    same_registry w w' /\
    calls w' = calls w.
Proof.
  intros Hok Hf Hun. unfold removeListener. rewrite Hf. simpl.
  revert w Hok Hun.
  induction (split_space names) as [|n ns IH]; intros w Hok Hun; simpl.
  - exists w. by split_and!.
  - destruct (removeListener_step_unregistered call n f w Hok)
      as (Hstep & Hok1 & Hsame & Hcalls); [apply Hun; left|].
    destruct (IH (removed w n f) Hok1) as (w' & Hloop & Hsame' & Hcalls').
    { intros k Hk. destruct Hsame as (-> & _). apply Hun. by right. }
    exists w'. unfold bind. rewrite Hstep. split_and!; [done| |congruence].
    eapply same_registry_trans; eauto.
Qed.

(** X5: The array that [listeners(n)] returns is a copy: it holds the sequence
    of [n], the map does not hold it, and pushing to it or unshifting it
    leaves every sequence of the registry as it was. *)
Theorem listeners_returns_copy n v w :
  heap_ok w ->
  array_at (listeners n w).2 (listeners n w).1 = listeners_of w n /\
  ((listeners n w).1 ∉ refs (listeners n w).2) /\
  same_registry w (listeners n w).2 /\
  same_registry w (Array_push (listeners n w).1 v (listeners n w).2) /\
  same_registry w (Array_unshift (listeners n w).1 v (listeners n w).2).
Proof.
  intros Hok. rewrite listeners_eq. simpl. split_and!.
  - apply array_at_snapshot.
  - intros Hin. apply Hok in Hin. lia.
  - by apply same_registry_snapshot.
  - apply same_registry_ext; try done. intros r Hr. simpl.
    rewrite list_lookup_alter_ne by lia. by rewrite lookup_app_l.
  - apply same_registry_ext; try done. intros r Hr. simpl.
    rewrite list_lookup_alter_ne by lia. by rewrite lookup_app_l.
Qed.

(** X6: No later activity on the emitter changes an array that [listeners(n)]
    has returned: after any program of calls to the emitter, in the world
    in which it returns or throws, the array still holds the sequence that
    [n] had when the copy was made. *)
Theorem listeners_copy_is_stable fuel d p n w :
  heap_ok w ->
  holds_after
    (fun w' => array_at w' (listeners n w).1 = listeners_of w n)
    (run global_name (apply global_name body fuel d) p (listeners n w).2).
Proof.
  intros Hok. rewrite listeners_eq. simpl.
  pose proof (heap_ok_extend w [listeners_of w n] Hok) as Hok1.
  fold (snapshot w n) in Hok1.
  pose proof (run_post global_name _ d (apply_post global_name body fuel d)
                p (snapshot w n) Hok1) as Hp.
  assert (Hkeep : forall w', evolves d (snapshot w n) w' ->
            array_at w' (length (store w)) = listeners_of w n).
  { intros w' [_ _ [_ Hfr] _].
    destruct (Hfr (length (store w))) as [Hsame _].
    - simpl. rewrite length_app. simpl. lia.
    - intros Hin. apply Hok in Hin. lia.
    - unfold array_at. rewrite Hsame. apply array_at_snapshot. }
  destruct (run _ _ _ _) as [a w'|e w'|]; simpl in *; auto.
Qed.




(** X8: A listener that emits its own event never returns: the emission of
    [n], with such a listener first in the sequence of [n], returns for no
    amount of fuel. *)
Theorem emit_of_self_emitting_listener_diverges fuel :
  forall d n args l rest w,
    heap_ok w ->
    listeners_of w n = l :: rest ->
    emits_first body l n ->
    emit (apply global_name body fuel d) n args w = Timeout.
Proof.
  induction fuel as [|fuel IH]; intros d n args l rest w Hok Hls Hself;
    rewrite (emit_snapshot _ d) by (done || apply apply_post); rewrite Hls.
  - done.
  - destruct Hself as (id & -> & Hbody).
    destruct (Hbody args) as (args' & k & Hprog).
    unfold bind at 1. unfold invoke_each. cbn [for_of apply].
    unfold bind at 1. unfold bind at 1. unfold modify.
    rewrite Hprog. cbn [run perform].
    destruct (logged_snapshot w n Hok) as (Hoks & Hlss & _).
    rewrite (IH (S d) n args' (VFunction id) rest).
    + done.
    + by destruct Hoks.
    + change (listeners_of (snapshot w n) n = VFunction id :: rest).
      by rewrite Hlss.
    + by exists id.
Qed.

(** X9: [emit] leaves the registry as it is when the listeners do not call the
    emitter: a second emission invokes the same listeners as the first, in
    the same order. *)
Theorem emit_twice_invokes_same_listeners fuel n args1 args2 w :
  heap_ok w ->
  Forall (quiet_listener body) (listeners_of w n) ->
  exists w1 w2,
    emit (apply global_name body (S fuel) 0) n args1 w =
      Ok (bool_decide (listeners_of w n <> [])) w1 /\
    emit (apply global_name body (S fuel) 0) n args2 w1 =
      Ok (bool_decide (listeners_of w n <> [])) w2 /\
    calls w2 =
      calls w ++ map (fun l => (0, l, args1)) (listeners_of w n)
              ++ map (fun l => (0, l, args2)) (listeners_of w n) /\
    (forall k, listeners_of w2 k = listeners_of w k).
Proof.
  intros Hok Hq.
  destruct (emit_quiet global_name body fuel 0 n args1 w Hok Hq)
    as (w1 & H1 & Hok1 & Hls1 & Hcalls1).
  destruct (emit_quiet global_name body fuel 0 n args2 w1 Hok1)
    as (w2 & H2 & Hok2 & Hls2 & Hcalls2); [by rewrite Hls1|].
  rewrite Hls1 in H2, Hcalls2.
  exists w1, w2. split_and!; [done|done| |].
  - by rewrite Hcalls2, Hcalls1, <- app_assoc.
  - intros k. by rewrite Hls2, Hls1.
Qed.




Lemma occurrences_NoDup k (ns : list string) :
  NoDup ns -> occurrences k ns = if bool_decide (k ∈ ns) then 1 else 0.
Proof.
  unfold occurrences. induction 1 as [|n ns Hn _ IH]; simpl; [done|].
  destruct (decide (n = k)) as [->|Hne].
  - rewrite (bool_decide_eq_true_2 (k = k)) by done. simpl.
    rewrite (bool_decide_eq_true_2 (k ∈ k :: ns)) by left.
    rewrite IH, bool_decide_eq_false_2; done.
  - rewrite (bool_decide_eq_false_2 (n = k)) by done. rewrite IH.
    assert (k ∈ ns <-> k ∈ n :: ns) as Hiff.
    { rewrite elem_of_cons. naive_solver. }
    by rewrite (bool_decide_ext _ _ Hiff).
Qed.

Lemma filter_replicate_self c f :
  is_function f = true ->
  List.filter (fun l => negb (strict_equals l f)) (replicate c f) = [].
Proof.
  intros Hf. induction c as [|c IH]; simpl; [done|].
  by rewrite strict_equals_function, bool_decide_eq_true_2 by done.
Qed.

(** X11: [once] with several names registers one closure under each of them,
    and the closure removes itself from all of them when it fires: after
    the first [emit] of any one of the names, the closure is registered
    under none, and every sequence of the registry is what it was before
    [once].  The names are distinct and do not include "removeListener";
    [f], the listeners of the emitted name and the listeners of
    "removeListener" do not call the emitter. *)
Theorem once_on_several_names_fires_for_one
    names n f prepend fuel args w :
  let onceListener := VOnceListener (closures w) names f in
  heap_ok w ->
  is_Some global_name ->
  NoDup (split_space names) ->
  n ∈ split_space names ->
  "removeListener" ∉ split_space names ->
  (forall k, onceListener ∉ listeners_of w k) ->
  quiet_listener body f ->
  Forall (quiet_listener body) (listeners_of w n) ->
  Forall (quiet_listener body) (listeners_of w "removeListener") ->
  exists w1 w2,
    once global_name names f prepend w = Ok tt w1 /\
    (forall k, k ∈ split_space names -> onceListener ∈ listeners_of w1 k) /\
    emit (apply global_name body (S (S fuel)) 0) n args w1 = Ok true w2 /\
    (forall k, listeners_of w2 k = listeners_of w k) /\
    (forall k, onceListener ∉ listeners_of w2 k).
Proof.
  intros W Hok Hg Hnd Hin Hrl Hfresh Hf Hold Hmeta.
  assert (HW : is_function W = true) by done.
  assert (Hok0 : heap_ok (with_closures (S (closures w)) w))
    by (by destruct Hok).
  destruct (addListener_loop_added global_name (split_space names) W prepend
              _ Hok0 Hg) as (w1 & Hloop & Hok1 & Hls1 & _).
  change (listeners_of (with_closures (S (closures w)) w)) with
    (listeners_of w) in Hls1.
  assert (Hout : forall k, k ∉ split_space names ->
            listeners_of w1 k = listeners_of w k).
  { intros k Hk. rewrite Hls1, occurrences_NoDup by done.
    rewrite bool_decide_eq_false_2 by done. simpl.
    destruct prepend; [done|by rewrite app_nil_r]. }
  assert (Hfil : forall k, List.filter (fun l => negb (strict_equals l W))
                   (listeners_of w1 k) = listeners_of w k).
  { intros k. rewrite Hls1. destruct prepend;
      rewrite List.filter_app, filter_replicate_self by done;
      rewrite ?app_nil_r; by apply filter_not_listener_absent. }
  assert (Hlsn : listeners_of w1 n =
            if prepend then W :: listeners_of w n
            else listeners_of w n ++ [W]).
  { rewrite Hls1, occurrences_NoDup by done.
    by rewrite bool_decide_eq_true_2. }
  assert (Hfire : forall wa, heap_ok wa ->
            (forall k, listeners_of wa k = listeners_of w1 k) ->
            exists wb,
              apply global_name body (S (S fuel)) 0 W args wa = Ok tt wb /\
              heap_ok wb /\
              (forall k, listeners_of wb k = listeners_of w k)).
  { intros wa Hoka Hlsa.
    assert (Hoke : heap_ok (with_calls (calls wa ++ [(0, W, args)]) wa))
      by (by destruct Hoka).
    destruct (apply_quiet global_name body fuel 1 f args _ Hoke Hf)
      as (we & Happ & Hokw & Hlse & _).
    destruct (removeListener_loop_quiet global_name body fuel 1
                (split_space names) W we Hokw)
      as (wb & Hrem & Hokb & Hlsb).
    { rewrite Hlse. change (Forall (quiet_listener body)
                              (listeners_of wa "removeListener")).
      by rewrite Hlsa, Hout. }
    exists wb. split_and!; [|done|].
    - change (apply global_name body (S (S fuel)) 0 W args wa) with
        ((do _ <- apply global_name body (S fuel) 1 f args;
          removeListener (apply global_name body (S fuel) 1) names W)
           (with_calls (calls wa ++ [(0, W, args)]) wa)).
      unfold bind. rewrite Happ. unfold removeListener.
      by rewrite HW.
    - intros k. rewrite Hlsb, Hlse.
      change (listeners_of (with_calls (calls wa ++ [(0, W, args)]) wa) k)
        with (listeners_of wa k).
      rewrite Hlsa, Hfil. case_bool_decide; [done|by apply Hout]. }
  destruct (logged_snapshot w1 n Hok1) as (Hoks & Hlss & _).
  assert (exists w2,
            invoke_each (apply global_name body (S (S fuel)) 0)
              (listeners_of w1 n) args (snapshot w1 n) = Ok tt w2 /\
            (forall k, listeners_of w2 k = listeners_of w k))
    as (w2 & Hinv & Hls2).
  { rewrite Hlsn. destruct prepend.
    - destruct (Hfire _ Hoks Hlss) as (wb & Happ & Hokb & Hlsb).
      destruct (invoke_each_quiet global_name body (S fuel) 0
                  (listeners_of w n) args wb Hokb Hold)
        as (wc & Hrest & _ & Hlsc & _).
      exists wc. unfold invoke_each in *. cbn [for_of]. unfold bind.
      rewrite Happ. split; [done|]. intros k. by rewrite Hlsc.
    - destruct (invoke_each_quiet global_name body (S fuel) 0
                  (listeners_of w n) args (snapshot w1 n) Hoks Hold)
        as (wa & Hrest & Hoka & Hlsa & _).
      destruct (Hfire wa Hoka) as (wb & Happ & _ & Hlsb).
      { intros k. by rewrite Hlsa. }
      exists wb. rewrite invoke_each_app. unfold bind. rewrite Hrest.
      unfold invoke_each. cbn [for_of]. unfold bind. by rewrite Happ. }
  exists w1, w2. split_and!.
  - unfold once. fold W. unfold addListener. by rewrite HW.
  - intros k Hk. rewrite Hls1, occurrences_NoDup by done.
    rewrite bool_decide_eq_true_2 by done.
    destruct prepend; apply elem_of_app; [left|right]; by left.
  - rewrite (emit_snapshot _ 0) by (done || apply apply_post).
    destruct (listeners_of w1 n) eqn:E.
    + destruct prepend; [done|by destruct (listeners_of w n)].
    + unfold bind. by rewrite Hinv.
  - done.
  - intros k. by rewrite Hls2.
Qed.

(** X12: A name whose listeners were all removed and that is registered again
    moves to the end of [eventNames]. *)
Theorem reregistered_name_goes_last n f prepend w :
  heap_ok w ->
  split_space n = [n] ->
  is_function f = true ->
  is_Some global_name \/
    SFeqb (number_of_nat 0) (maxListeners w) = false ->
  exists w',
    addListener global_name n f prepend (removeAllListeners n w) = Ok tt w' /\
    eventNames w' =
      List.filter (fun k => negb (bool_decide (k = n))) (eventNames w) ++ [n] /\
    listeners_of w' n = [f].
Proof.
  intros Hok Hn Hf Hg.
  assert (Hev : evolves 0 w (removeAllListeners n w))
    by (eapply evolves_delete; done).
  pose proof (fun k => listeners_of_delete w (removeAllListeners n w) n k
                         Hok eq_refl eq_refl) as Hls0.
  pose proof (eventNames_delete w (removeAllListeners n w) n Hok eq_refl)
    as Hnames0.
  destruct (addListener_step_added global_name n f prepend
              (removeAllListeners n w)) as (w' & Hadd & _ & Hnames & Hls & _).
  { apply Hev. }
  { rewrite listenerCount_length, Hls0, decide_True by done. exact Hg. }
  exists w'. split_and!.
  - rewrite addListener_single by done. unfold bind. by rewrite Hadd.
  - rewrite Hnames, Hnames0. rewrite decide_False; [done|].
    rewrite list_elem_of_In, filter_In, bool_decide_eq_true_2 by done.
    by intros [_ ?].
  - rewrite Hls, decide_True, Hls0, decide_True by done.
    by destruct prepend.
Qed.

Lemma split_on_tokens sep s t :
  t ∈ split_on sep s -> contains sep t = false.
Proof.
  revert t. induction s as [|c s IH]; intros t; simpl.
  - by intros ->%list_elem_of_singleton.
  - case_decide as Hc.
    + intros [->|Ht]%elem_of_cons; [done|auto].
    + pose proof (split_on_nonempty sep s) as Hne.
      destruct (split_on sep s) as [|x xs]; [done|].
      intros [->|Ht]%elem_of_cons.
      * simpl. rewrite decide_False by done. apply IH. left.
      * apply IH. by right.
Qed.

Lemma addListener_step_names n f prepend w :
  heap_ok w ->
  holds_after
    (fun w' => heap_ok w' /\
       forall k, k ∈ eventNames w' -> k ∈ eventNames w \/ k = n)
    (addListener_step global_name n f prepend w).
Proof.
  intros Hok.
  destruct (SFeqb (number_of_nat (listenerCount n w)) (maxListeners w))
    eqn:E; [destruct global_name as [g|] eqn:Eg|].
  - destruct (addListener_step_added (Some g) n f prepend w Hok)
      as (w' & -> & Hok' & Hnames & _); [left; by eexists|].
    simpl. split; [done|]. intros k. rewrite Hnames.
    case_decide; [auto|]. rewrite elem_of_app, list_elem_of_singleton. auto.
  - unfold addListener_step, bind. rewrite E. simpl. auto.
  - destruct (addListener_step_added global_name n f prepend w Hok)
      as (w' & -> & Hok' & Hnames & _); [by right|].
    simpl. split; [done|]. intros k. rewrite Hnames.
    case_decide; [auto|]. rewrite elem_of_app, list_elem_of_singleton. auto.
Qed.

(** X13: Every name that [addListener] adds to [eventNames] is a token of the
    names string and has no space in it, also when [addListener] throws
    half way. *)
Theorem addListener_registers_space_free_names names f prepend w :
  heap_ok w ->
  holds_after
    (fun w' => forall k, k ∈ eventNames w' ->
       k ∈ eventNames w \/
       (k ∈ split_space names /\ contains " " k = false))
    (addListener global_name names f prepend w).
Proof.
  intros Hok.
  assert (Hloop : forall ns w0, heap_ok w0 ->
            holds_after
              (fun w' => forall k, k ∈ eventNames w' ->
                 k ∈ eventNames w0 \/ k ∈ ns)
              (for_of ns
                 (fun n => addListener_step global_name n f prepend) w0)).
  { induction ns as [|n ns IH]; intros w0 Hok0; simpl; [auto|].
    unfold bind.
    pose proof (addListener_step_names n f prepend w0 Hok0) as Hstep.
    destruct (addListener_step _ _ _ _ _) as [[] w1|e w1|]; simpl in *;
      [|intros k Hk; destruct Hstep as [_ Hs];
        destruct (Hs k Hk) as [?| ->]; [auto|right; left]|done].
    destruct Hstep as [Hok1 Hs]. specialize (IH w1 Hok1).
    destruct (for_of _ _ _) as [[] w2|e w2|]; simpl in *; [| |done].
    all: intros k Hk; destruct (IH k Hk) as [Hk1|?]; [|right; by right].
    all: destruct (Hs k Hk1) as [?| ->]; [auto|right; left]. }
  unfold addListener. destruct (negb _); simpl; [auto|].
  specialize (Hloop (split_space names) w Hok).
  destruct (for_of _ _ _) as [[] w'|e w'|]; simpl in *; [| |done].
  all: intros k Hk; destruct (Hloop k Hk) as [?|Hin]; [auto|right].
  all: split; [done|]; by eapply split_on_tokens.
Qed.

Lemma addListener_step_console n f prepend w w' :
  addListener_step global_name n f prepend w = Ok tt w' ->
  console w' =
    if SFeqb (number_of_nat (listenerCount n w)) (maxListeners w)
    then match global_name with
         | Some g => console w ++ [warning w g]
         | None => console w
         end
    else console w.
Proof.
  unfold addListener_step, bind, Map_has, Array_push, Array_unshift.
  destruct (SFeqb _ _); [destruct global_name|]; simpl; try done.
  all: destruct (Map_get (_eventMap w) n); simpl.
  all: repeat case_match; intros; simplify_eq; done.
Qed.

(** X14: A listener that emits another event: the listeners of that event run
    to the end, one level deeper, before the outer emission goes on with
    its next listener. *)
Theorem nested_emit_runs_to_completion
    fuel n m args args' id rest w :
  heap_ok w ->
  listeners_of w n = VFunction id :: rest ->
  body id args = Emitter (OpEmit m args') (fun _ => Done) ->
  Forall (quiet_listener body) (listeners_of w m) ->
  Forall (quiet_listener body) rest ->
  exists w',
    emit (apply global_name body (S (S fuel)) 0) n args w = Ok true w' /\
    calls w' =
      calls w ++ [(0, VFunction id, args)] ++
      map (fun l => (1, l, args')) (listeners_of w m) ++
      map (fun l => (0, l, args)) rest /\
    (forall k, listeners_of w' k = listeners_of w k).
Proof.
  intros Hok Hls Hbody Hm Hrest.
  rewrite (emit_snapshot _ 0) by (done || apply apply_post).
  rewrite Hls.
  destruct (logged_snapshot w n Hok) as (Hoks & Hlss & Hcallss).
  rewrite app_nil_r in Hcallss.
  assert (Hoke : heap_ok (with_calls
            (calls (snapshot w n) ++ [(0, VFunction id, args)])
            (snapshot w n))) by (by destruct Hoks).
  destruct (emit_quiet global_name body fuel 1 m args' _ Hoke)
    as (w1 & Hemit & Hok1 & Hls1 & Hcalls1).
  { change (Forall (quiet_listener body) (listeners_of (snapshot w n) m)).
    by rewrite Hlss. }
  destruct (invoke_each_quiet global_name body (S fuel) 0 rest args w1
              Hok1 Hrest) as (w2 & Hrun & _ & Hls2 & Hcalls2).
  assert (Happ : apply global_name body (S (S fuel)) 0 (VFunction id) args
                   (snapshot w n) = Ok tt w1).
  { change (apply global_name body (S (S fuel)) 0 (VFunction id) args
              (snapshot w n)) with
      (run global_name (apply global_name body (S fuel) 1) (body id args)
         (with_calls (calls (snapshot w n) ++ [(0, VFunction id, args)])
            (snapshot w n))).
    rewrite Hbody. cbn [run perform]. by rewrite Hemit. }
  exists w2. split_and!.
  - unfold bind at 1. unfold invoke_each in *. cbn [for_of].
    unfold bind at 1. by rewrite Happ, Hrun.
  - rewrite Hcalls2, Hcalls1. simpl calls.
    replace (listeners_of
               (with_calls (calls w ++ [(0, VFunction id, args)])
                  (snapshot w n)) m)
      with (listeners_of w m) by (symmetry; apply Hlss).
    by rewrite <- !app_assoc.
  - intros k. rewrite Hls2, Hls1.
    change (listeners_of (snapshot w n) k = listeners_of w k). apply Hlss.
Qed.


End Further.

Section Warning.

Context {U : Type}.
Implicit Types (w : World U) (n g : string) (f : Value).


End Warning.

(** ** Array lengths as numbers *)

Section Numbers.

Local Open Scope Z_scope.

Lemma digits2_pos_size p : digits2_pos p = Pos.size p.
Proof. induction p; simpl; congruence. Qed.

Lemma digits2_pos_iter_xO p d :
  Zpos (digits2_pos (Pos.iter xO p d)) = Zpos (digits2_pos p) + Zpos d.
Proof.
  induction d using Pos.peano_ind.
  - simpl. lia.
  - rewrite Pos.iter_succ. simpl. lia.
Qed.

Lemma digits2_pos_bound p : Zpos p < 2 ^ 53 -> Zpos (digits2_pos p) <= 53.
Proof.
  intros Hp. rewrite digits2_pos_size.
  pose proof (Pos.size_le p) as Hle.
  destruct (Z_le_gt_dec (Zpos (Pos.size p)) 53) as [|Hgt]; [done|].
  exfalso.
  assert (2 ^ 54 <= 2 ^ Zpos (Pos.size p)) by (apply Z.pow_le_mono_r; lia).
  assert (2 ^ Zpos (Pos.size p) <= 2 * Zpos p).
  { rewrite <- (Pos2Z.inj_pow 2). change (2 * Z.pos p) with (Z.pos (2 * p)).
    apply Pos2Z.pos_le_pos. exact Hle. }
  change (2 ^ 54) with (2 * 2 ^ 53) in *. lia.
Qed.

Lemma shr_fexp_canonical m e :
  Zpos (digits2_pos m) = 53 -> -1074 <= e ->
  shr_fexp 53 1024 (Zpos m) e loc_Exact =
    ({| shr_m := Zpos m; shr_r := false; shr_s := false |}, e).
Proof.
  intros Hd He. unfold shr_fexp, fexp, emin.
  cbn [Zdigits2 shr_record_of_loc]. rewrite Hd.
  match goal with |- context [shr _ _ ?n] => replace n with 0 by lia end.
  reflexivity.
Qed.

Lemma binary_round_aux_canonical m e :
  Zpos (digits2_pos m) = 53 -> -1074 <= e <= 971 ->
  binary_round_aux 53 1024 false (Zpos m) e loc_Exact = S754_finite false m e.
Proof.
  intros Hd He. unfold binary_round_aux.
  rewrite shr_fexp_canonical by lia.
  cbn [shr_m loc_of_shr_record round_nearest_even].
  rewrite shr_fexp_canonical by lia. cbn [shr_m].
  destruct (Z.leb_spec e (1024 - 53)); [done|lia].
Qed.

(** A natural number below 2^53 is a zero or a finite double. *)
Lemma number_of_nat_finite (c : nat) :
  Z.of_nat c < 2 ^ 53 ->
  number_of_nat c = S754_zero false \/
  exists m e, number_of_nat c = S754_finite false m e.
Proof.
  intros Hz. unfold number_of_nat.
  destruct (Z.of_nat c) as [|p|p] eqn:Ec; [by left| |lia]. right.
  unfold binary_normalize, binary_round, shl_align, fexp, emin.
  pose proof (digits2_pos_bound p Hz) as Hd.
  assert (0 < Zpos (digits2_pos p)) by lia.
  replace (Z.max (Zpos (digits2_pos p) + 0 - 53) (3 - 1024 - 53) - 0)
    with (Zpos (digits2_pos p) - 53) by lia.
  replace (Z.max (Zpos (digits2_pos p) + 0 - 53) (3 - 1024 - 53))
    with (Zpos (digits2_pos p) - 53) by lia.
  destruct (Zpos (digits2_pos p) - 53) as [|q|q] eqn:E; [|lia|].
  - eexists _, _. apply binary_round_aux_canonical; lia.
  - eexists _, _. apply binary_round_aux_canonical; [|lia].
    rewrite digits2_pos_iter_xO. lia.
Qed.

Lemma number_of_nat_not_Infinity (c : nat) :
  Z.of_nat c < 2 ^ 53 -> SFeqb (number_of_nat c) Infinity = false.
Proof.
  intros Hz. by destruct (number_of_nat_finite c Hz) as [->|(m & e & ->)].
Qed.

End Numbers.

Section Threshold.

Context {U : Type}.
Implicit Types (w : World U) (n : string) (f : Value).

(** X17: Setting [maxListeners] to a zero switches the warning off: the setter
    stores positive infinity, no count equals it, so [addListener] then
    registers the listener and writes nothing to the console, also in a host
    that does not define [name]. *)
Theorem zero_maxListeners_disables_warning
    global_name sign n f prepend w :
  heap_ok w ->
  split_space n = [n] ->
  is_function f = true ->
  (Z.of_nat (listenerCount n w) < 2 ^ 53)%Z ->
  exists w0 w',
    set_maxListeners (VNumber (S754_zero sign)) w = Ok tt w0 /\
    maxListeners w0 = Infinity /\
    addListener global_name n f prepend w0 = Ok tt w' /\
    console w' = console w /\
    listeners_of w' n =
      (if prepend then f :: listeners_of w n else listeners_of w n ++ [f]).
Proof.
  intros Hok Hn Hf Hc.
  assert (Hok0 : heap_ok (with_maxListeners Infinity w)) by (by destruct Hok).
  assert (Hbelow : SFeqb (number_of_nat
                     (listenerCount n (with_maxListeners Infinity w)))
                     (maxListeners (with_maxListeners Infinity w)) = false).
  { by apply number_of_nat_not_Infinity. }
  destruct (addListener_step_added global_name n f prepend _ Hok0)
    as (w' & Hadd & _ & _ & Hls & _); [by right|].
  exists (with_maxListeners Infinity w), w'. split_and!; [done|done| | |].
  - rewrite addListener_single by done. unfold bind. by rewrite Hadd.
  - rewrite (addListener_step_console global_name n f prepend _ w' Hadd).
    by rewrite Hbelow.
  - by rewrite Hls, decide_True.
Qed.

End Threshold.

(** ** The further properties at concrete inputs *)

Lemma Example_AB_listeners k :
  listeners_of Example.AB k = [Example.A; Example.B] \/
  listeners_of Example.AB k = [].
Proof.
  unfold listeners_of. simpl. case_decide; [by left|by right].
Defined.

Lemma addListener_places_listener_witness :
  heap_ok Example.AB /\
  exists w',
    addListener None "x" Example.C true Example.AB = Ok tt w' /\
    listeners_of w' "x" = [Example.C; Example.A; Example.B].
Proof.
  destruct Example_AB_ok as [Hok _]. split; [exact Hok|].
  destruct (addListener_places_listener None "x" Example.C true Example.AB
              Hok eq_refl eq_refl) as (w' & Hadd & Hls & _).
  { right. reflexivity. }
  exists w'. split; [exact Hadd|exact Hls].
Defined.

Lemma removeAllListeners_clears_witness :
  heap_ok Example.AB_C /\
  listenerCount "x" (removeAllListeners "x" Example.AB_C) = 0 /\
  eventNames (removeAllListeners "x" Example.AB_C) = ["y"].
Proof.
  assert (Hok : heap_ok Example.AB_C) by (by apply heap_okb_ok).
  split; [exact Hok|].
  destruct (removeAllListeners_clears "x" Example.AB_C Hok)
    as (_ & Hcount & _ & _ & Hnames & _).
  split; [exact Hcount|]. rewrite Hnames. reflexivity.
Defined.

Lemma removeListener_last_deletes_entry_witness :
  heap_ok Example.AA /\
  Forall (fun l => l = Example.A) (listeners_of Example.AA "x") /\
  exists w',
    removeListener Example.call_idle "x" Example.A Example.AA = Ok tt w' /\
    listenerCount "x" w' = 0 /\
    eventNames w' = [].
Proof.
  assert (Hok : heap_ok Example.AA) by (by apply heap_okb_ok).
  assert (Hall : Forall (fun l => l = Example.A) (listeners_of Example.AA "x"))
    by (by repeat constructor).
  split; [exact Hok|]. split; [exact Hall|].
  destruct (removeListener_last_deletes_entry Example.call_idle "x" Example.A
              Example.AA Hok eq_refl eq_refl Hall)
    as (w' & Hrem & _ & Hcount & _ & Hnames & _).
  exists w'. split_and!; [exact Hrem|exact Hcount|].
  rewrite Hnames. reflexivity.
Defined.

Lemma removeListener_unregistered_names_witness :
  heap_ok Example.AB /\
  exists w',
    removeListener Example.call_idle "y z" Example.A Example.AB = Ok tt w' /\
    same_registry Example.AB w' /\
    calls w' = calls Example.AB.
Proof.
  destruct Example_AB_ok as [Hok _]. split; [exact Hok|].
  apply (removeListener_unregistered_names Example.call_idle "y z" Example.A
           Example.AB Hok eq_refl).
  intros k Hk Hin. vm_compute in Hk, Hin.
  apply list_elem_of_singleton in Hin. subst k.
  apply elem_of_cons in Hk as [Hk|Hk]; [discriminate Hk|].
  apply list_elem_of_singleton in Hk. discriminate Hk.
Defined.

Lemma listeners_returns_copy_witness :
  heap_ok Example.AB /\
  array_at (listeners "x" Example.AB).2 (listeners "x" Example.AB).1 =
    [Example.A; Example.B] /\
  same_registry Example.AB
    (Array_push (listeners "x" Example.AB).1 Example.C
       (listeners "x" Example.AB).2).
Proof.
  destruct Example_AB_ok as [Hok _]. split; [exact Hok|].
  destruct (listeners_returns_copy "x" Example.C Example.AB Hok)
    as (Hcopy & _ & _ & Hpush & _).
  split; [exact Hcopy|exact Hpush].
Defined.

Lemma listeners_copy_is_stable_witness :
  heap_ok Example.AB /\
  holds_after
    (fun w' => array_at w' (listeners "x" Example.AB).1 =
               listeners_of Example.AB "x")
    (run None (apply None Example.body 3 0) (Example.body 0 [])
       (listeners "x" Example.AB).2).
Proof.
  destruct Example_AB_ok as [Hok _]. split; [exact Hok|].
  apply (listeners_copy_is_stable None Example.body 3 0 (Example.body 0 [])
           "x" Example.AB Hok).
Defined.


Lemma emit_of_self_emitting_listener_diverges_witness :
  heap_ok Example.AB /\
  emits_first Example.looping Example.A "x" /\
  emit (apply None Example.looping 5 0) "x" [] Example.AB = Timeout.
Proof.
  destruct Example_AB_ok as [Hok _].
  assert (Hself : emits_first Example.looping Example.A "x").
  { exists 0. split; [reflexivity|]. intros args. by eexists _, _. }
  split; [exact Hok|]. split; [exact Hself|].
  apply (emit_of_self_emitting_listener_diverges None Example.looping 5 0 "x"
           [] Example.A [Example.B] Example.AB Hok eq_refl Hself).
Defined.

Lemma emit_twice_invokes_same_listeners_witness :
  heap_ok Example.AB /\
  Forall (quiet_listener Example.idle) (listeners_of Example.AB "x") /\
  exists w1 w2,
    emit (apply None Example.idle 1 0) "x" [VNull] Example.AB = Ok true w1 /\
    emit (apply None Example.idle 1 0) "x" [] w1 = Ok true w2 /\
    calls w2 = [(0, Example.A, [VNull]); (0, Example.B, [VNull]);
                (0, Example.A, []); (0, Example.B, [])].
Proof.
  destruct Example_AB_ok as [Hok _].
  assert (Hq : Forall (quiet_listener Example.idle)
                 (listeners_of Example.AB "x")).
  { repeat constructor; apply Example_idle_quiet. }
  split; [exact Hok|]. split; [exact Hq|].
  destruct (emit_twice_invokes_same_listeners None Example.idle 0 "x"
              [VNull] [] Example.AB Hok Hq)
    as (w1 & w2 & H1 & H2 & Hcalls & _).
  exists w1, w2. split_and!; [exact H1|exact H2|exact Hcalls].
Defined.


Lemma once_on_several_names_fires_for_one_witness :
  heap_ok Example.AB /\
  NoDup (split_space "x y") /\
  exists w1 w2,
    once (Some "") "x y" Example.C false Example.AB = Ok tt w1 /\
    VOnceListener 0 "x y" Example.C ∈ listeners_of w1 "y" /\
    emit (apply (Some "") Example.idle 2 0) "x" [] w1 = Ok true w2 /\
    listeners_of w2 "y" = [].
Proof.
  destruct Example_AB_ok as [Hok _].
  assert (Hnd : NoDup (split_space "x y")).
  { apply (bool_decide_unpack _). vm_compute. exact I. }
  split; [exact Hok|]. split; [exact Hnd|].
  destruct (once_on_several_names_fires_for_one (Some "") Example.idle
              "x y" "x" Example.C false 0 [] Example.AB Hok)
    as (w1 & w2 & H1 & Hin & H2 & Hls & _).
  - by eexists.
  - exact Hnd.
  - vm_compute. left.
  - vm_compute. intros Hin. apply elem_of_cons in Hin as [Hin|Hin];
      [discriminate Hin|].
    apply list_elem_of_singleton in Hin. discriminate Hin.
  - intros k Hin.
    destruct (Example_AB_listeners k) as [Hk|Hk]; rewrite Hk in Hin.
    + apply elem_of_cons in Hin as [Hin|Hin]; [discriminate Hin|].
      apply list_elem_of_singleton in Hin. discriminate Hin.
    + by apply elem_of_nil in Hin.
  - apply Example_idle_quiet.
  - repeat constructor; apply Example_idle_quiet.
  - constructor.
  - exists w1, w2. split_and!; [exact H1| |exact H2|].
    + apply Hin. vm_compute. right. left.
    + by rewrite Hls.
Defined.

Lemma reregistered_name_goes_last_witness :
  heap_ok Example.AB_C /\
  exists w',
    addListener None "x" Example.A false
      (removeAllListeners "x" Example.AB_C) = Ok tt w' /\
    eventNames w' = ["y"; "x"].
Proof.
  assert (Hok : heap_ok Example.AB_C) by (by apply heap_okb_ok).
  split; [exact Hok|].
  destruct (reregistered_name_goes_last None "x" Example.A false
              Example.AB_C Hok eq_refl eq_refl)
    as (w' & Hadd & Hnames & _).
  { right. reflexivity. }
  exists w'. split; [exact Hadd|]. rewrite Hnames. reflexivity.
Defined.

Lemma addListener_registers_space_free_names_witness :
  heap_ok Example.AB /\
  holds_after
    (fun w' => forall k, k ∈ eventNames w' ->
       k ∈ eventNames Example.AB \/
       (k ∈ split_space " a  b" /\ contains " " k = false))
    (addListener None " a  b" Example.C false Example.AB).
Proof.
  destruct Example_AB_ok as [Hok _]. split; [exact Hok|].
  apply (addListener_registers_space_free_names None " a  b" Example.C false
           Example.AB Hok).
Defined.


Lemma zero_maxListeners_disables_warning_witness :
  heap_ok Example.AB /\
  (Z.of_nat (listenerCount "x" Example.AB) < 2 ^ 53)%Z /\
  exists w0 w',
    set_maxListeners (VNumber (S754_zero true)) Example.AB = Ok tt w0 /\
    addListener None "x" Example.C false w0 = Ok tt w' /\
    console w' = console Example.AB.
Proof.
  destruct Example_AB_ok as [Hok _].
  assert (Hc : (Z.of_nat (listenerCount "x" Example.AB) < 2 ^ 53)%Z)
    by reflexivity.
  split; [exact Hok|]. split; [exact Hc|].
  destruct (zero_maxListeners_disables_warning None true "x" Example.C false
              Example.AB Hok eq_refl eq_refl Hc)
    as (w0 & w' & Hset & _ & Hadd & Hconsole & _).
  exists w0, w'. split_and!; [exact Hset|exact Hadd|exact Hconsole].
Defined.

Lemma nested_emit_runs_to_completion_witness :
  heap_ok Example.AB_C /\
  exists w',
    emit (apply None Example.nesting 2 0) "x" [] Example.AB_C = Ok true w' /\
    calls w' = [(0, Example.A, []); (1, Example.C, [VNull]);
                (0, Example.B, [])].
Proof.
  assert (Hok : heap_ok Example.AB_C) by (by apply heap_okb_ok).
  split; [exact Hok|].
  destruct (nested_emit_runs_to_completion None Example.nesting 0 "x" "y"
              [] [VNull] 0 [Example.B] Example.AB_C Hok eq_refl eq_refl)
    as (w' & Hemit & Hcalls & _).
  { constructor; [|constructor]. exists 2. split; [reflexivity|].
    intros args. constructor. }
  { constructor; [|constructor]. exists 1. split; [reflexivity|].
    intros args. constructor. }
  exists w'. split; [exact Hemit|exact Hcalls].
Defined.

